(** * PackHub standalone CLI: catalog parser, cache and dependency resolver

    A shallow embedding of [src/main.py].  Python [str] values are modelled
    as [string] (a character is a code point below 256), the package
    dictionary as [gmap string Package], Python sets as [gset string]. *)

From Stdlib Require Import Ascii.
From stdpp Require Import gmap strings list fin_maps relations.

(** ** Data model *)

(** [@dataclass class Package]; [__post_init__] replaces a missing
    [depends] by the empty list. *)
Record Package := mkPackage {
  name : string;
  version : string;
  architecture : string;
  filename : string;
  depends : list (string * string)
}.

(** [@dataclass class InstalledPackage]. *)
Record InstalledPackage := mkInstalled {
  inst_name : string;
  inst_version : string;
  inst_architecture : string
}.

(** [FORBIDDEN_PACKAGES]. *)
Definition FORBIDDEN_PACKAGES : gset string :=
  {[ "libc6"; "libc-bin"; "libgcc-s1"; "dpkg"; "apt"; "bash";
     "coreutils"; "systemd"; "init"; "base-files"; "ubuntu-minimal" ]}.

(** ** Dependency resolver *)

Module Resolver.

(** [if x not in to_install: to_install.append(x)]. *)
Definition append_new (to_install : list string) (x : string) : list string :=
  if decide (x ∈ to_install) then to_install else to_install ++ [x].

(** [for sub_dep in sub_deps: if sub_dep not in to_install: ...append]. *)
Definition merge (to_install sub_deps : list string) : list string :=
  fold_left append_new sub_deps to_install.


Section resolver.
(** [self.db.packages], [self.installed] and the forbidden set. *)
Variable packages : gmap string Package.
Variable installed : gmap string InstalledPackage.
Variable forbidden : gset string.

(** The three [continue] guards at the head of the loop body. *)
Definition skipped (dep_name : string) : bool :=
  bool_decide (dep_name ∈ forbidden)
  || bool_decide (is_Some (installed !! dep_name))
  || bool_decide (is_Some (installed !! (dep_name +:+ "t64"))).

(** The [for dep_name, constraint in pkg.depends] loop; [rec] is the
    recursive call, the [visited] set is the shared mutable set. *)
Fixpoint resolve_loop (rec : string → gset string → option (list string * gset string))
    (deps : list (string * string)) (to_install : list string)
    (visited : gset string) : option (list string * gset string) :=
  match deps with
  | [] => Some (to_install, visited)
  | (dep_name, constraint) :: rest =>
      if bool_decide (dep_name ∈ forbidden) then
        resolve_loop rec rest to_install visited
      else if bool_decide (is_Some (installed !! dep_name)) then
        resolve_loop rec rest to_install visited
      else if bool_decide (is_Some (installed !! (dep_name +:+ "t64"))) then
        resolve_loop rec rest to_install visited
      else
        match rec dep_name visited with
        | None => None
        | Some (sub_deps, visited') =>
            resolve_loop rec rest
              (append_new (merge to_install sub_deps) dep_name) visited'
        end
  end.

(** [_resolve_dependencies(name, visited)]; [fuel] bounds the depth of
    the Python call stack, [None] stands for an exhausted bound. *)
Fixpoint resolve_fuel (fuel : nat) (name : string) (visited : gset string)
    : option (list string * gset string) :=
  match fuel with
  | O => None
  | S fuel' =>
      if decide (name ∈ visited) then Some ([], visited)
      else
        let visited := {[name]} ∪ visited in
        match packages !! name with
        | None => Some ([], visited)
        | Some pkg =>
            resolve_loop (resolve_fuel fuel') (depends pkg) [] visited
        end
  end.

(** The top-level call [_resolve_dependencies(name)] with [visited=None]:
    the depth never exceeds the number of catalog names plus one. The
    recursion limit of the interpreter is left out: the Python code raises
    [RecursionError] when the catalog holds a chain of dependencies longer
    than that limit allows. *)
Definition resolve_run (name : string) : option (list string * gset string) :=
  resolve_fuel (S (size packages)) name ∅.

(** The list the top-level call returns; the [None] branch is never taken
    (lemma [resolve_run_returns] below). *)
Definition _resolve_dependencies (name : string) : list string :=
  match resolve_run name with
  | Some (to_install, _) => to_install
  | None => []
  end.

(** The names marked visited when the top-level call returns. *)
Definition resolve_visited (name : string) : gset string :=
  match resolve_run name with
  | Some (_, visited) => visited
  | None => ∅
  end.
End resolver.

(** ** The deduplicating append *)

Lemma elem_of_append_new T x y : y ∈ append_new T x ↔ y ∈ T ∨ y = x.
Proof.
  unfold append_new. destruct (decide (x ∈ T)).
  - split; [auto | intros [?| ->]; assumption].
  - rewrite elem_of_app, list_elem_of_singleton. reflexivity.
Qed.

Lemma elem_of_merge l : ∀ T y, y ∈ merge T l ↔ y ∈ T ∨ y ∈ l.
Proof.
  unfold merge. induction l as [|x l IH]; intros T y; simpl.
  - rewrite elem_of_nil. tauto.
  - rewrite IH, elem_of_append_new, elem_of_cons. tauto.
Qed.

Lemma NoDup_append_new T x : NoDup T → NoDup (append_new T x).
Proof.
  intros HT. unfold append_new. destruct (decide (x ∈ T)); [exact HT|].
  apply NoDup_app. split; [exact HT|]. split; [|apply NoDup_singleton].
  intros y Hy Hy'. apply list_elem_of_singleton in Hy'. congruence.
Qed.

Lemma NoDup_merge l : ∀ T, NoDup T → NoDup (merge T l).
Proof.
  unfold merge. induction l as [|x l IH]; intros T HT; simpl; [exact HT|].
  apply IH, NoDup_append_new, HT.
Qed.






(** ** Termination of the resolver *)

Section resolver_facts.
Variable packages : gmap string Package.
Variable installed : gmap string InstalledPackage.
Variable forbidden : gset string.

Local Abbreviation skipped := (skipped installed forbidden).
Local Abbreviation resolve_loop := (resolve_loop installed forbidden).
Local Abbreviation resolve_fuel := (resolve_fuel packages installed forbidden).
Local Abbreviation resolve_run := (resolve_run packages installed forbidden).
Local Abbreviation _resolve_dependencies :=
  (_resolve_dependencies packages installed forbidden).
Local Abbreviation resolve_visited := (resolve_visited packages installed forbidden).

(** One iteration of the loop, by cases on the guards. *)
Lemma resolve_loop_skip rec dep_name constraint rest to_install visited :
  skipped dep_name = true →
  resolve_loop rec ((dep_name, constraint) :: rest) to_install visited
  = resolve_loop rec rest to_install visited.
Proof.
  unfold Resolver.skipped. intros Hs. simpl.
  repeat (destruct (bool_decide _); [reflexivity|]). discriminate.
Qed.

Lemma resolve_loop_descend rec dep_name constraint rest to_install visited :
  skipped dep_name = false →
  resolve_loop rec ((dep_name, constraint) :: rest) to_install visited
  = match rec dep_name visited with
    | None => None
    | Some (sub_deps, visited') =>
        resolve_loop rec rest
          (append_new (merge to_install sub_deps) dep_name) visited'
    end.
Proof.
  unfold Resolver.skipped. intros Hs. simpl.
  repeat (destruct (bool_decide _); [discriminate|]). reflexivity.
Qed.

(** The loop returns as soon as every recursive call does. *)
Lemma resolve_loop_returns rec (bound : gset string) deps :
  (∀ d V, bound ⊆ V → ∃ out V', rec d V = Some (out, V') ∧ V ⊆ V') →
  ∀ to_install visited, bound ⊆ visited →
  ∃ out V', resolve_loop rec deps to_install visited = Some (out, V')
            ∧ visited ⊆ V'.
Proof.
  intros Hrec. induction deps as [|[d c] rest IH]; intros T V HV.
  - exists T, V. split; [reflexivity | set_solver].
  - destruct (skipped d) eqn:Hs.
    + rewrite resolve_loop_skip by exact Hs. apply IH, HV.
    + rewrite resolve_loop_descend by exact Hs.
      destruct (Hrec d V HV) as (sub & V1 & -> & Hsub).
      destruct (IH (append_new (merge T sub) d) V1) as (out & V' & -> & HV');
        [set_solver|].
      exists out, V'. split; [reflexivity | set_solver].
Qed.

(** A call returns whenever the fuel exceeds the number of catalog names
    not yet visited. *)
Lemma resolve_fuel_returns fuel :
  ∀ name visited, size (dom packages ∖ visited) < fuel →
  ∃ out V', resolve_fuel fuel name visited = Some (out, V') ∧ visited ⊆ V'.
Proof.
  induction fuel as [|fuel IH]; intros n V Hsz; [lia|].
  simpl. destruct (decide (n ∈ V)) as [Hin|Hnin].
  - exists [], V. split; [reflexivity | set_solver].
  - destruct (packages !! n) as [p|] eqn:Hp.
    + destruct (resolve_loop_returns (Resolver.resolve_fuel packages installed forbidden fuel)
                  ({[n]} ∪ V) (depends p)) with (to_install := @nil string)
                  (visited := {[n]} ∪ V) as (out & V' & Hout & HV').
      * intros d V1 HV1. apply IH.
        assert (dom packages ∖ V1 ⊂ dom packages ∖ V) as Hlt.
        { split; [set_solver|]. intros Hsub.
          assert (n ∈ dom packages ∖ V) as Hn
            by (apply elem_of_difference; split; [apply elem_of_dom; eauto | exact Hnin]).
          apply Hsub in Hn. set_solver. }
        apply subset_size in Hlt. lia.
      * set_solver.
      * exists out, V'. split; [exact Hout | set_solver].
    + exists [], ({[n]} ∪ V). split; [reflexivity | set_solver].
Qed.

Lemma resolve_run_returns root :
  ∃ out V', resolve_run root = Some (out, V').
Proof.
  destruct (resolve_fuel_returns (S (size packages)) root ∅) as (out & V' & H & _).
  - rewrite <- size_dom.
    assert (size (dom packages ∖ (∅ : gset string)) ≤ size (dom packages)).
    { apply subseteq_size. set_solver. }
    lia.
  - exists out, V'. exact H.
Qed.

Lemma resolve_run_eq root :
  resolve_run root = Some (_resolve_dependencies root, resolve_visited root).
Proof.
  unfold Resolver._resolve_dependencies, Resolver.resolve_visited.
  destruct (resolve_run_returns root) as (out & V' & ->). reflexivity.
Qed.

(** More fuel never changes a result. *)
Lemma resolve_loop_mono rec rec' deps :
  (∀ d V r, rec d V = Some r → rec' d V = Some r) →
  ∀ T V r, resolve_loop rec deps T V = Some r →
           resolve_loop rec' deps T V = Some r.
Proof.
  intros Hrec. induction deps as [|[d c] rest IH]; intros T V r Hrun;
    [exact Hrun|].
  destruct (skipped d) eqn:Hs.
  - rewrite resolve_loop_skip in * by exact Hs. apply IH, Hrun.
  - rewrite resolve_loop_descend in * by exact Hs.
    destruct (rec d V) as [[sub V1]|] eqn:Hcall; [|discriminate].
    rewrite (Hrec _ _ _ Hcall). apply IH, Hrun.
Qed.

Lemma resolve_fuel_mono fuel :
  ∀ fuel' n V r, fuel ≤ fuel' → resolve_fuel fuel n V = Some r →
                 resolve_fuel fuel' n V = Some r.
Proof.
  induction fuel as [|fuel IH]; intros fuel' n V r Hle Hrun; [discriminate|].
  destruct fuel' as [|fuel']; [lia|]. simpl in *.
  destruct (decide (n ∈ V)); [exact Hrun|].
  destruct (packages !! n); [|exact Hrun].
  eapply resolve_loop_mono; [|exact Hrun].
  intros d V1 r1. apply IH. lia.
Qed.

Lemma resolve_fuel_run fuel root out V' :
  resolve_fuel fuel root ∅ = Some (out, V') →
  _resolve_dependencies root = out ∧ resolve_visited root = V'.
Proof.
  intros Hrun. pose proof (resolve_run_eq root) as Heq.
  unfold Resolver.resolve_run in Heq.
  apply (resolve_fuel_mono _ (fuel + S (size packages))) in Hrun; [|lia].
  apply (resolve_fuel_mono _ (fuel + S (size packages))) in Heq; [|lia].
  rewrite Hrun in Heq. injection Heq as <- <-. split; reflexivity.
Qed.

(** ** What a call returns and marks *)

(** A dependency edge the resolver follows: a slot of a catalog record
    that passes the three guards. *)
Definition dep_edge (x d : string) : Prop :=
  ∃ p c, packages !! x = Some p ∧ (d, c) ∈ depends p ∧ skipped d = false.

Definition call_post (n : string) (V : gset string) (out : list string)
    (V' : gset string) : Prop :=
  V ⊆ V' ∧ n ∈ V' ∧ NoDup out
  ∧ (∀ x, x ∈ out → skipped x = false)
  ∧ (∀ x, x ∈ V' → x ∈ V ∨ x = n ∨ x ∈ out)
  ∧ (∀ x d, x ∈ V' → x ∉ V → dep_edge x d → d ∈ out).

Lemma resolve_loop_post rec deps :
  (∀ d V out V', rec d V = Some (out, V') → call_post d V out V') →
  ∀ T V out V', resolve_loop rec deps T V = Some (out, V') →
  V ⊆ V' ∧ (NoDup T → NoDup out)
  ∧ (∀ x, x ∈ T → x ∈ out)
  ∧ (∀ x, x ∈ out → x ∈ T ∨ skipped x = false)
  ∧ (∀ x, x ∈ V' → x ∈ V ∨ x ∈ out)
  ∧ (∀ d c, (d, c) ∈ deps → skipped d = false → d ∈ out)
  ∧ (∀ x d, x ∈ V' → x ∉ V → dep_edge x d → d ∈ out).
Proof.
  intros Hrec. induction deps as [|[d c] rest IH]; intros T V out V' Hrun.
  - simpl in Hrun. injection Hrun as <- <-.
    repeat split; try tauto; [set_solver|].
    intros d c Hd. apply elem_of_nil in Hd. contradiction.
  - destruct (skipped d) eqn:Hs.
    + rewrite resolve_loop_skip in Hrun by exact Hs.
      destruct (IH _ _ _ _ Hrun) as (H1 & H2 & H3 & H4 & H5 & H6 & H7).
      repeat split; try assumption.
      intros d' c' Hd' Hs'. apply elem_of_cons in Hd' as [Heq|Hd'].
      * injection Heq as -> ->. congruence.
      * eapply H6; eassumption.
    + rewrite resolve_loop_descend in Hrun by exact Hs.
      destruct (rec d V) as [[sub V1]|] eqn:Hcall; [|discriminate].
      destruct (Hrec _ _ _ _ Hcall) as (C1 & C2 & C3 & C4 & C5 & C6).
      destruct (IH _ _ _ _ Hrun) as (H1 & H2 & H3 & H4 & H5 & H6 & H7).
      assert (∀ x, x ∈ sub → x ∈ out) as Hsub.
      { intros x Hx. apply H3, elem_of_append_new. left.
        apply elem_of_merge. right. exact Hx. }
      assert (d ∈ out) as Hd.
      { apply H3, elem_of_append_new. right. reflexivity. }
      split; [set_solver|].
      split; [intros HT; apply H2, NoDup_append_new, NoDup_merge, HT|].
      split; [intros x Hx; apply H3, elem_of_append_new; left;
              apply elem_of_merge; left; exact Hx|].
      split.
      { intros x Hx. destruct (H4 x Hx) as [Hx'|Hx']; [|right; exact Hx'].
        apply elem_of_append_new in Hx' as [Hx'| ->]; [|right; exact Hs].
        apply elem_of_merge in Hx' as [Hx'|Hx']; [left; exact Hx'|].
        right. apply C4, Hx'. }
      split.
      { intros x Hx. destruct (H5 x Hx) as [Hx'|Hx']; [|right; exact Hx'].
        destruct (C5 x Hx') as [?|[->|?]]; [left; assumption|right..];
          [exact Hd | apply Hsub; assumption]. }
      split.
      { intros d' c' Hd' Hs'. apply elem_of_cons in Hd' as [Heq|Hd'].
        - injection Heq as -> ->. exact Hd.
        - eapply H6; eassumption. }
      intros x d' Hx Hnx He. destruct (decide (x ∈ V1)) as [Hx1|Hx1].
      * apply Hsub. eapply C6; eassumption.
      * eapply H7; eassumption.
Qed.

Lemma resolve_fuel_post fuel :
  ∀ n V out V', resolve_fuel fuel n V = Some (out, V') → call_post n V out V'.
Proof.
  induction fuel as [|fuel IH]; intros n V out V' Hrun; [discriminate|].
  simpl in Hrun. destruct (decide (n ∈ V)) as [Hin|Hnin].
  - injection Hrun as <- <-. unfold call_post.
    repeat split; try tauto; try apply NoDup_nil_2; try set_solver.
  - destruct (packages !! n) as [p|] eqn:Hp.
    + destruct (resolve_loop_post _ _ IH _ _ _ _ Hrun)
        as (H1 & H2 & H3 & H4 & H5 & H6 & H7).
      unfold call_post.
      split; [set_solver|]. split; [set_solver|].
      split; [apply H2, NoDup_nil_2|].
      split.
      { intros x Hx. destruct (H4 x Hx) as [Hx'|Hx']; [|exact Hx'].
        apply elem_of_nil in Hx'. contradiction. }
      split.
      { intros x Hx. destruct (H5 x Hx) as [Hx'|Hx']; [|auto].
        apply elem_of_union in Hx' as [Hx'|Hx']; [|auto].
        apply elem_of_singleton in Hx'. auto. }
      intros x d Hx Hnx He. destruct (decide (x = n)) as [->|Hne].
      * destruct He as (p' & c & Hp' & Hd & Hs).
        rewrite Hp in Hp'. injection Hp' as <-. eapply H6; eassumption.
      * eapply H7; [exact Hx | set_solver | exact He].
    + injection Hrun as <- <-. unfold call_post.
      split; [set_solver|]. split; [set_solver|].
      split; [apply NoDup_nil_2|].
      split; [intros x Hx; apply elem_of_nil in Hx; contradiction|].
      split; [set_solver|].
      intros x d Hx Hnx (p' & c & Hp' & _).
      assert (x = n) as -> by set_solver. congruence.
Qed.

Lemma resolve_post root :
  call_post root ∅ (_resolve_dependencies root) (resolve_visited root).
Proof. eapply resolve_fuel_post, resolve_run_eq. Qed.

(** ** Dependency-first order on acyclic catalogs *)







(** No cycle among the names reached from [start] by followed edges. *)
Variable start : string.
Hypothesis acyclic : ∀ x, rtc dep_edge start x → ¬ tc dep_edge x x.


End resolver_facts.

(** ** Sample catalogs *)

Definition pkg (n : string) (deps : list string) : Package :=
  mkPackage n "1.0" "amd64" "" ((λ d, (d, "")) <$> deps).

Definition catalog_of (l : list Package) : gmap string Package :=
  list_to_map ((λ p, (name p, p)) <$> l).

(** A depends on B, B depends on A. *)
Definition cycle_catalog : gmap string Package :=
  catalog_of [pkg "A" ["B"]; pkg "B" ["A"]].


(** A depends on B, B depends on C, C has no dependencies. *)
Definition chain_catalog : gmap string Package :=
  catalog_of [pkg "A" ["B"]; pkg "B" ["C"]; pkg "C" []].


(** A depends on X, and X has no record. *)
Definition dangling_catalog : gmap string Package :=
  catalog_of [pkg "A" ["X"]].

(** A depends on the protected libc6, whose record depends on Z. *)
Definition protected_catalog : gmap string Package :=
  catalog_of [pkg "A" ["libc6"]; pkg "libc6" ["Z"]; pkg "Z" []].

(** A depends on Y and on foo; both have records with a dependency. *)
Definition satisfied_catalog : gmap string Package :=
  catalog_of [pkg "A" ["Y"; "foo"]; pkg "Y" ["Z"]; pkg "foo" ["W"];
              pkg "Z" []; pkg "W" []].

Definition installed_of (l : list string) : gmap string InstalledPackage :=
  list_to_map ((λ n, (n, mkInstalled n "1.0" "amd64")) <$> l).

(** ** The resolver's properties *)

(** C1 (the code departs from the claim): on the two-package cycle, A
    depending on B and B on A with nothing installed, the call for A returns
    and its list is [A; B]: the root itself is emitted, because the caller
    appends a dependency name even when the recursive call found it already
    visited. *)
Theorem resolve_cycle_emits_root :
  resolve_run cycle_catalog ∅ FORBIDDEN_PACKAGES "A"
    = Some (["A"; "B"], {["A"; "B"]})
  ∧ _resolve_dependencies cycle_catalog ∅ FORBIDDEN_PACKAGES "A" = ["A"; "B"]
  ∧ "A" ∈ _resolve_dependencies cycle_catalog ∅ FORBIDDEN_PACKAGES "A".
Proof.
  split; [vm_compute; reflexivity|].
  split; [vm_compute; reflexivity|].
  apply (bool_decide_unpack _). vm_compute. exact I.
Qed.

(** C2, as stated, fails: A depends on X, X has no record and is neither
    installed nor forbidden, and the list returned for A is [X]. *)
Lemma unresolved_name_is_emitted :
  dangling_catalog !! "X" = None
  ∧ skipped ∅ FORBIDDEN_PACKAGES "X" = false
  ∧ _resolve_dependencies dangling_catalog ∅ FORBIDDEN_PACKAGES "A" = ["X"].
Proof. repeat split; vm_compute; reflexivity. Qed.

(** C2, amended: a dependency name without a record, met in a slot of a
    record expanded during resolution and passing the guards, is not
    expanded (a call on it returns the empty list and only marks it
    visited), and the name itself is in the returned list. *)
Theorem unresolved_name_kept packages installed forbidden root x d :
  x ∈ resolve_visited packages installed forbidden root →
  dep_edge packages installed forbidden x d →
  packages !! d = None →
  d ∈ _resolve_dependencies packages installed forbidden root
  ∧ ∀ fuel V, d ∉ V →
      resolve_fuel packages installed forbidden (S fuel) d V
      = Some ([], {[d]} ∪ V).
Proof.
  intros Hx He Hd. split.
  - destruct (resolve_post packages installed forbidden root)
      as (_ & _ & _ & _ & _ & Hall).
    apply (Hall x d Hx); [set_solver | exact He].
  - intros fuel V HV. simpl. rewrite decide_False by exact HV.
    rewrite Hd. reflexivity.
Qed.

Lemma unresolved_name_kept_witness :
  "X" ∈ _resolve_dependencies dangling_catalog ∅ FORBIDDEN_PACKAGES "A"
  ∧ ∀ fuel V, "X" ∉ V →
      resolve_fuel dangling_catalog ∅ FORBIDDEN_PACKAGES (S fuel) "X" V
      = Some ([], {["X"]} ∪ V).
Proof.
  apply (unresolved_name_kept dangling_catalog ∅ FORBIDDEN_PACKAGES "A" "A" "X").
  - apply (bool_decide_unpack _). vm_compute. exact I.
  - exists (pkg "A" ["X"]), "". repeat split.
    + apply list_elem_of_singleton. reflexivity.
  - vm_compute. reflexivity.
Defined.

(** C5: no forbidden name is in the returned list; no forbidden name other
    than the root is ever marked visited, so none is descended into; and a
    forbidden slot leaves the plan and the visited set as they were, whether
    or not the name has a record. *)
Theorem resolve_excludes_forbidden packages installed forbidden root :
  (∀ x, x ∈ _resolve_dependencies packages installed forbidden root →
        x ∉ forbidden)
  ∧ (∀ x, x ∈ resolve_visited packages installed forbidden root →
          x ∈ forbidden → x = root)
  ∧ (∀ rec x c rest to_install visited, x ∈ forbidden →
       resolve_loop installed forbidden rec ((x, c) :: rest) to_install visited
       = resolve_loop installed forbidden rec rest to_install visited).
Proof.
  destruct (resolve_post packages installed forbidden root)
    as (_ & _ & _ & Hout & Hvis & _).
  assert (∀ x, skipped installed forbidden x = false → x ∉ forbidden) as Hsk.
  { intros x Hs Hx. unfold skipped in Hs.
    rewrite (bool_decide_eq_true_2 _ Hx) in Hs. discriminate. }
  split; [intros x Hx; apply Hsk, Hout, Hx|]. split.
  - intros x Hx Hf. destruct (Hvis x Hx) as [H|[H|H]];
      [set_solver | exact H | exfalso; exact (Hsk x (Hout x H) Hf)].
  - intros rec x c rest T V Hx. apply resolve_loop_skip.
    unfold skipped. rewrite (bool_decide_eq_true_2 _ Hx). reflexivity.
Qed.

(** A forbidden dependency with a record: neither libc6 nor its own
    dependency Z reaches the plan, and neither is visited. *)
Example resolve_protected_slot :
  resolve_run protected_catalog ∅ FORBIDDEN_PACKAGES "A" = Some ([], {["A"]}).
Proof. vm_compute. reflexivity. Qed.

(** C6: no name that is installed, or whose variant with the suffix t64 is
    installed, is in the returned list; no such name other than the root is
    marked visited, so none is expanded; and such a slot leaves the plan and
    the visited set as they were. *)
Theorem resolve_excludes_installed packages installed forbidden root :
  (∀ x, x ∈ _resolve_dependencies packages installed forbidden root →
        installed !! x = None ∧ installed !! (x +:+ "t64") = None)
  ∧ (∀ x, x ∈ resolve_visited packages installed forbidden root →
          is_Some (installed !! x) ∨ is_Some (installed !! (x +:+ "t64")) →
          x = root)
  ∧ (∀ rec x c rest to_install visited,
       is_Some (installed !! x) ∨ is_Some (installed !! (x +:+ "t64")) →
       resolve_loop installed forbidden rec ((x, c) :: rest) to_install visited
       = resolve_loop installed forbidden rec rest to_install visited).
Proof.
  destruct (resolve_post packages installed forbidden root)
    as (_ & _ & _ & Hout & Hvis & _).
  assert (∀ x, is_Some (installed !! x) ∨ is_Some (installed !! (x +:+ "t64")) →
               skipped installed forbidden x = true) as Hsk.
  { intros x [Hx|Hx]; unfold skipped; rewrite (bool_decide_eq_true_2 _ Hx);
      [apply orb_true_iff; left|]; apply orb_true_r. }
  split.
  - intros x Hx. apply Hout in Hx.
    split; apply eq_None_not_Some; intros Hs;
      rewrite Hsk in Hx by auto; discriminate.
  - split.
    + intros x Hx Hi. destruct (Hvis x Hx) as [H|[H|H]];
        [set_solver | exact H |].
      apply Hout in H. rewrite (Hsk x Hi) in H. discriminate.
    + intros rec x c rest T V Hx. apply resolve_loop_skip, Hsk, Hx.
Qed.

(** A depends on Y and foo; Y and foot64 are installed: nothing is planned
    and neither Y, foo nor their dependencies are visited. *)
Example resolve_satisfied_slots :
  resolve_run satisfied_catalog (installed_of ["Y"; "foot64"])
    FORBIDDEN_PACKAGES "A" = Some ([], {["A"]})
  ∧ _resolve_dependencies satisfied_catalog ∅ FORBIDDEN_PACKAGES "A"
    = ["Z"; "Y"; "W"; "foo"].
Proof. split; vm_compute; reflexivity. Qed.

(** *** Order of the plan *)







End Resolver.

(** ** Catalog parser *)

Module Parser.

(** Exceptions the parser's statements could raise. *)
Inductive exn := ValueError | KeyError.

Inductive result (A : Type) :=
| Ok (a : A)
| Raise (e : exn).
Arguments Ok {A} a.
Arguments Raise {A} e.

(** *** String primitives *)

(** [str.isspace] on one character, for code points below 256; [\s] of
    the [re] module is the same class. *)
Definition is_space (c : ascii) : bool :=
  let n := nat_of_ascii c in
  (Nat.leb 9 n && Nat.leb n 13) || (Nat.leb 28 n && Nat.leb n 32)
  || Nat.eqb n 133 || Nat.eqb n 160.

Definition is_empty (s : string) : bool :=
  match s with EmptyString => true | String _ _ => false end.

Fixpoint lstrip (s : string) : string :=
  match s with
  | EmptyString => EmptyString
  | String c s' => if is_space c then lstrip s' else s
  end.

Fixpoint rstrip (s : string) : string :=
  match s with
  | EmptyString => EmptyString
  | String c s' =>
      let r := rstrip s' in
      if is_space c && is_empty r then EmptyString else String c r
  end.

(** [s.strip()]. *)
Definition strip (s : string) : string := rstrip (lstrip s).

(** [c in s] for a one-character [c]. *)
Fixpoint contains (c : ascii) (s : string) : bool :=
  match s with
  | EmptyString => false
  | String c' s' => Ascii.eqb c' c || contains c s'
  end.

(** Puts a character in front of the first piece. *)
Definition cons_head (c : ascii) (pieces : list string) : list string :=
  match pieces with
  | [] => [String c EmptyString]
  | h :: t => String c h :: t
  end.

(** [s.split(sep)] for a non-empty [sep], scanning left to right; [skip]
    counts the characters of a matched separator still to be passed. *)
Fixpoint split_go (sep : string) (skip : nat) (s : string) : list string :=
  match s with
  | EmptyString => [EmptyString]
  | String c s' =>
      match skip with
      | S k => split_go sep k s'
      | O =>
          if String.prefix sep s then
            EmptyString :: split_go sep (String.length sep - 1) s'
          else cons_head c (split_go sep 0 s')
      end
  end.

Definition split (sep s : string) : list string := split_go sep 0 s.

(** [s.split(sep, 1)] for a one-character [sep]. *)
Fixpoint split_once (sep : ascii) (s : string) : list string :=
  match s with
  | EmptyString => [EmptyString]
  | String c s' =>
      if Ascii.eqb c sep then [EmptyString; s']
      else cons_head c (split_once sep s')
  end.

(** The longest prefix of characters satisfying [f], and the rest. *)
Fixpoint span (f : ascii → bool) (s : string) : string * string :=
  match s with
  | EmptyString => (EmptyString, EmptyString)
  | String c s' =>
      if f c then let '(a, b) := span f s' in (String c a, b)
      else (EmptyString, s)
  end.

(** *** The dependency pattern *)

(** A character of the class [[^\s(]]. *)
Definition name_char (c : ascii) : bool :=
  negb (is_space c) && negb (Ascii.eqb c "(").

(** A character of the class [[^)]]. *)
Definition constraint_char (c : ascii) : bool := negb (Ascii.eqb c ")").

(** The optional group [(?:\s*\(([^)]+)\))?] applied to what follows the
    name: the content of group 2, or [None] when the group does not
    take part in the match. *)
Definition match_constraint (rest : string) : option string :=
  match snd (span is_space rest) with
  | String p rest' =>
      if Ascii.eqb p "(" then
        match span constraint_char rest' with
        | (String c cs, String q _) =>
            if Ascii.eqb q ")" then Some (String c cs) else None
        | _ => None
        end
      else None
  | EmptyString => None
  end.

(** [re.match(r'^([^\s(]+)(?:\s*\(([^)]+)\))?', dep)] followed by
    [(match.group(1), match.group(2) or '')]; [None] when there is no
    match. *)
Definition match_dep (dep : string) : option (string * string) :=
  match span name_char dep with
  | (EmptyString, _) => None
  | (dep_name, rest) => Some (dep_name, default EmptyString (match_constraint rest))
  end.

(** The body of [if 'Depends' in pkg_data]. *)
Definition parse_depends (value : string) : list (string * string) :=
  omap (λ dep, match_dep (strip dep)) (split "," value).

(** *** Stanzas *)

(** The [for line in lines] loop filling [pkg_data]. *)
Fixpoint parse_lines (lines : list string) (pkg_data : gmap string string)
    : result (gmap string string) :=
  match lines with
  | [] => Ok pkg_data
  | line :: rest =>
      if is_empty line || negb (contains ":" line) then
        parse_lines rest pkg_data
      else
        match split_once ":" line with
        | [key; value] =>
            parse_lines rest (<[strip key := strip value]> pkg_data)
        | _ => Raise ValueError
        end
  end.

(** [pkg_data] of one entry. *)
Definition stanza_fields (entry : string) : result (gmap string string) :=
  parse_lines (split (String "010" EmptyString) entry) ∅.

(** [pkg_data[key]]. *)
Definition getitem (pkg_data : gmap string string) (key : string) : result string :=
  match pkg_data !! key with
  | Some v => Ok v
  | None => Raise KeyError
  end.

(** The record built from [pkg_data] once ['Package'] is known present. *)
Definition make_package (pkg_data : gmap string string) : result Package :=
  let depends :=
    match pkg_data !! "Depends" with
    | Some value => parse_depends value
    | None => []
    end in
  match getitem pkg_data "Package" with
  | Raise e => Raise e
  | Ok n =>
      Ok (mkPackage n
            (default "" (pkg_data !! "Version"))
            (default "amd64" (pkg_data !! "Architecture"))
            (default "" (pkg_data !! "Filename"))
            depends)
  end.

(** One iteration of [for entry in entries]. *)
Definition parse_entry (entry : string) (packages : gmap string Package)
    : result (gmap string Package) :=
  if is_empty (strip entry) then Ok packages
  else
    match stanza_fields entry with
    | Raise e => Raise e
    | Ok pkg_data =>
        if bool_decide (pkg_data !! "Package" = None) then Ok packages
        else
          match make_package pkg_data with
          | Raise e => Raise e
          | Ok pkg => Ok (<[name pkg := pkg]> packages)
          end
    end.

Fixpoint parse_entries (entries : list string) (packages : gmap string Package)
    : result (gmap string Package) :=
  match entries with
  | [] => Ok packages
  | entry :: rest =>
      match parse_entry entry packages with
      | Raise e => Raise e
      | Ok packages' => parse_entries rest packages'
      end
  end.

(** [PackageDatabase._parse_packages]. *)
Definition _parse_packages (content : string) : result (gmap string Package) :=
  parse_entries (split (String "010" (String "010" EmptyString)) content) ∅.

Definition nl : string := String "010" EmptyString.

(** *** A stanza read off its lines *)

(** The key and the value a line gives: what stands before its first colon
    and what stands after it, both stripped; none for a line without
    colon. *)
Definition line_field (line : string) : option (string * string) :=
  if contains ":" line then
    match split_once ":" line with
    | [key; value] => Some (strip key, strip value)
    | _ => None
    end
  else None.

(** The value the lines of a stanza give to [key]: that of the last line
    that gives it one. *)
Fixpoint field_value (lines : list string) (key : string) : option string :=
  match lines with
  | [] => None
  | line :: rest =>
      match field_value rest key with
      | Some v => Some v
      | None =>
          match line_field line with
          | Some (k, v) => if decide (k = key) then Some v else None
          | None => None
          end
      end
  end.

(** The record that the lines of a stanza describe under the name [n]. *)
Definition stanza_record (n : string) (lines : list string) : Package :=
  mkPackage n
    (default "" (field_value lines "Version"))
    (default "amd64" (field_value lines "Architecture"))
    (default "" (field_value lines "Filename"))
    (match field_value lines "Depends" with
     | Some value => parse_depends value
     | None => []
     end).

(** A stanza with a name and an architecture only, then another stanza. *)
Definition partial_text : string :=
  "Package: vim" +:+ nl +:+ "Architecture: arm64" +:+ nl +:+ nl
  +:+ "Package: zsh" +:+ nl +:+ "Version: 5.9".

(** Every character of [s] satisfies [f]. *)
Fixpoint string_forall (f : ascii → bool) (s : string) : bool :=
  match s with
  | EmptyString => true
  | String c s' => f c && string_forall f s'
  end.

(** [s] is empty or its first character fails [f]. *)
Definition stops (f : ascii → bool) (s : string) : bool :=
  match s with
  | EmptyString => true
  | String c _ => negb (f c)
  end.

Definition sample : string :=
  "Package: nmap" +:+ nl +:+ "Version: 7.94" +:+ nl +:+ "no separator here" +:+ nl
  +:+ "Depends: libc6 (>= 2.38), liblua5.4-0 | liblua5.3-0, libssl3t64(>=3),, a|b , (x)" +:+ nl
  +:+ nl +:+ nl +:+ "Version: 3" +:+ nl +:+ nl +:+ "Package: zed" +:+ nl.

(** *** Facts on the string primitives *)

Lemma span_spec f s a b :
  span f s = (a, b) → s = a +:+ b ∧ string_forall f a = true ∧ stops f b = true.
Proof.
  revert a b. induction s as [|c s IH]; intros a b; simpl.
  - intros [= <- <-]. auto.
  - destruct (f c) eqn:Hc.
    + destruct (span f s) as [a' b']. intros [= <- <-].
      destruct (IH a' b' eq_refl) as (-> & Ha & Hb). simpl.
      rewrite Hc. auto.
    + intros [= <- <-]. simpl. rewrite Hc. auto.
Qed.

Lemma span_app f a b :
  string_forall f a = true → stops f b = true → span f (a +:+ b) = (a, b).
Proof.
  intros Ha Hb. induction a as [|c a IH].
  - change (EmptyString +:+ b) with b.
    destruct b as [|c b]; [reflexivity|]. simpl in *.
    apply negb_true_iff in Hb. rewrite Hb. reflexivity.
  - change (String c a +:+ b) with (String c (a +:+ b)). simpl in *.
    apply andb_true_iff in Ha as [Hc Ha]. rewrite Hc, (IH Ha). reflexivity.
Qed.

Lemma split_once_pair sep s :
  contains sep s = true → ∃ key value, split_once sep s = [key; value].
Proof.
  induction s as [|c s IH]; simpl; [discriminate|].
  destruct (Ascii.eqb c sep); simpl.
  - intros _. eauto.
  - intros Hs. destruct (IH Hs) as (k & v & ->). simpl. eauto.
Qed.

Lemma cons_head_forall f c pieces :
  f c = true → Forall (λ p, string_forall f p = true) pieces →
  Forall (λ p, string_forall f p = true) (cons_head c pieces).
Proof.
  intros Hc Hp. destruct Hp as [|h t Hh Ht]; simpl.
  - constructor; [simpl; rewrite Hc; reflexivity | constructor].
  - constructor; [simpl; rewrite Hc, Hh; reflexivity | exact Ht].
Qed.

Lemma split_go_cons sep skip c s :
  split_go sep skip (String c s)
  = match skip with
    | S k => split_go sep k s
    | O =>
        if String.prefix sep (String c s) then
          EmptyString :: split_go sep (String.length sep - 1) s
        else cons_head c (split_go sep 0 s)
    end.
Proof. reflexivity. Qed.

(** The pieces of a split are made of characters of the string. *)
Lemma split_go_forall f sep s :
  string_forall f s = true →
  ∀ skip, Forall (λ p, string_forall f p = true) (split_go sep skip s).
Proof.
  induction s as [|c s IH]; intros Hs skip.
  - constructor; [reflexivity | constructor].
  - rewrite split_go_cons.
    simpl in Hs. apply andb_true_iff in Hs as [Hc Hs].
    destruct skip as [|k]; [|apply IH, Hs].
    destruct (String.prefix sep (String c s)).
    + constructor; [reflexivity | apply IH, Hs].
    + apply cons_head_forall; [exact Hc | apply IH, Hs].
Qed.

Lemma rstrip_blank s :
  is_empty (rstrip s) = true → string_forall is_space s = true.
Proof.
  induction s as [|c s IH]; simpl; [reflexivity|].
  destruct (is_space c) eqn:Hc; simpl; [|discriminate].
  destruct (is_empty (rstrip s)) eqn:Hr; simpl; [|discriminate].
  intros _. apply IH. reflexivity.
Qed.

Lemma strip_blank s :
  is_empty (strip s) = true → string_forall is_space s = true.
Proof.
  unfold strip. induction s as [|c s IH]; simpl; [reflexivity|].
  destruct (is_space c) eqn:Hc; simpl; [exact IH|].
  rewrite Hc. simpl. discriminate.
Qed.

Lemma blank_no_colon s :
  string_forall is_space s = true → contains ":" s = false.
Proof.
  induction s as [|c s IH]; simpl; [reflexivity|].
  intros H. apply andb_true_iff in H as [Hc Hs]. rewrite (IH Hs).
  destruct (Ascii.eqb_spec c ":") as [->|_]; [discriminate Hc | reflexivity].
Qed.

(** *** Facts on the stanza loop *)

Lemma parse_lines_skip line rest d :
  contains ":" line = false → parse_lines (line :: rest) d = parse_lines rest d.
Proof. intros H. simpl. rewrite H, orb_true_r. reflexivity. Qed.

Lemma parse_lines_total lines : ∀ d, ∃ d', parse_lines lines d = Ok d'.
Proof.
  induction lines as [|line rest IH]; intros d; simpl; [eauto|].
  destruct (is_empty line || negb (contains ":" line)) eqn:Hg; [apply IH|].
  apply orb_false_iff in Hg as [_ Hc]. apply negb_false_iff in Hc.
  destruct (split_once_pair _ _ Hc) as (k & v & ->). apply IH.
Qed.

Lemma parse_lines_drop l1 line l2 :
  contains ":" line = false →
  ∀ d, parse_lines (l1 ++ line :: l2) d = parse_lines (l1 ++ l2) d.
Proof.
  intros Hline. induction l1 as [|l l1 IH]; intros d.
  - apply parse_lines_skip, Hline.
  - simpl. destruct (is_empty l || negb (contains ":" l)); [apply IH|].
    destruct (split_once ":" l) as [|k [|v [|? ?]]]; try reflexivity. apply IH.
Qed.

Lemma parse_lines_blank lines d :
  Forall (λ l, string_forall is_space l = true) lines →
  parse_lines lines d = Ok d.
Proof.
  induction 1 as [|l rest Hl _ IH]; [reflexivity|].
  rewrite parse_lines_skip by (apply blank_no_colon, Hl). exact IH.
Qed.

Lemma stanza_fields_blank entry :
  is_empty (strip entry) = true → stanza_fields entry = Ok ∅.
Proof.
  intros H. apply parse_lines_blank, split_go_forall, strip_blank, H.
Qed.

Lemma stanza_fields_total entry : ∃ d, stanza_fields entry = Ok d.
Proof. apply parse_lines_total. Qed.

(** The record of a stanza whose fields hold a ['Package'] key. *)
Definition record_of (n : string) (d : gmap string string) : Package :=
  mkPackage n (default "" (d !! "Version"))
    (default "amd64" (d !! "Architecture"))
    (default "" (d !! "Filename"))
    (match d !! "Depends" with Some value => parse_depends value | None => [] end).

Lemma parse_entry_no_package entry d packages :
  stanza_fields entry = Ok d → d !! "Package" = None →
  parse_entry entry packages = Ok packages.
Proof.
  intros Hd Hp. unfold parse_entry. destruct (is_empty (strip entry)); [reflexivity|].
  rewrite Hd, bool_decide_eq_true_2 by exact Hp. reflexivity.
Qed.

Lemma parse_entry_package entry d n packages :
  stanza_fields entry = Ok d → d !! "Package" = Some n →
  parse_entry entry packages = Ok (<[n := record_of n d]> packages).
Proof.
  intros Hd Hp. unfold parse_entry.
  destruct (is_empty (strip entry)) eqn:Hb.
  - rewrite (stanza_fields_blank _ Hb) in Hd. injection Hd as <-.
    rewrite lookup_empty in Hp. discriminate.
  - rewrite Hd, bool_decide_eq_false_2 by (rewrite Hp; discriminate).
    unfold make_package, getitem. rewrite Hp. reflexivity.
Qed.

Lemma parse_entry_total entry packages :
  ∃ packages', parse_entry entry packages = Ok packages'.
Proof.
  destruct (stanza_fields_total entry) as [d Hd].
  destruct (d !! "Package") as [n|] eqn:Hp.
  - rewrite (parse_entry_package _ _ _ _ Hd Hp). eauto.
  - rewrite (parse_entry_no_package _ _ _ Hd Hp). eauto.
Qed.

Lemma parse_entries_total entries :
  ∀ packages, ∃ packages', parse_entries entries packages = Ok packages'.
Proof.
  induction entries as [|e rest IH]; intros packages; simpl; [eauto|].
  destruct (parse_entry_total e packages) as [p' ->]. apply IH.
Qed.

(** Every record of the result is the record of one of the entries, or was
    there before. *)
Lemma parse_entries_origin entries :
  ∀ packages packages' n p,
  parse_entries entries packages = Ok packages' → packages' !! n = Some p →
  packages !! n = Some p
  ∨ ∃ entry d, entry ∈ entries ∧ stanza_fields entry = Ok d
               ∧ d !! "Package" = Some n ∧ p = record_of n d.
Proof.
  induction entries as [|e rest IH]; intros packages packages' n p Hrun Hp.
  - injection Hrun as <-. left. exact Hp.
  - simpl in Hrun.
    destruct (parse_entry e packages) as [mid|] eqn:He; [|discriminate].
    destruct (IH _ _ _ _ Hrun Hp) as [Hmid|(entry & d & Hin & Hd & Hn & Hr)].
    + destruct (stanza_fields_total e) as [d Hd].
      destruct (d !! "Package") as [m|] eqn:Hm.
      * rewrite (parse_entry_package _ _ _ _ Hd Hm) in He. injection He as <-.
        apply lookup_insert_Some in Hmid as [[<- <-]|[_ Hmid]].
        -- right. exists e, d. repeat split; try assumption. left.
        -- left. exact Hmid.
      * rewrite (parse_entry_no_package _ _ _ Hd Hm) in He. injection He as <-.
        left. exact Hmid.
    + right. exists entry, d. repeat split; try assumption. right. exact Hin.
Qed.

(** *** Stanzas and their lines *)

Lemma parse_entries_app l1 l2 packages :
  parse_entries (l1 ++ l2) packages
  = match parse_entries l1 packages with
    | Ok mid => parse_entries l2 mid
    | Raise e => Raise e
    end.
Proof.
  revert packages. induction l1 as [|e l1 IH]; intros packages; [reflexivity|].
  simpl. destruct (parse_entry e packages); [apply IH | reflexivity].
Qed.

Lemma parse_entries_keep l n :
  (∀ e d, e ∈ l → stanza_fields e = Ok d → d !! "Package" ≠ Some n) →
  ∀ packages packages', parse_entries l packages = Ok packages' →
  packages' !! n = packages !! n.
Proof.
  induction l as [|e l IH]; intros Hl packages packages' Hrun.
  - injection Hrun as <-. reflexivity.
  - simpl in Hrun. destruct (stanza_fields_total e) as [d Hd].
    assert (d !! "Package" ≠ Some n) as Hn by (eapply Hl; [left | exact Hd]).
    assert (∀ e' d', e' ∈ l → stanza_fields e' = Ok d' → d' !! "Package" ≠ Some n)
      as Hl' by (intros e' d' He'; apply Hl; right; exact He').
    destruct (d !! "Package") as [m|] eqn:Hm.
    + rewrite (parse_entry_package _ _ _ _ Hd Hm) in Hrun.
      rewrite (IH Hl' _ _ Hrun). apply lookup_insert_ne. congruence.
    + rewrite (parse_entry_no_package _ _ _ Hd Hm) in Hrun.
      apply (IH Hl' _ _ Hrun).
Qed.

Lemma split_once_spec c s :
  contains c s = true →
  ∃ key value, s = key +:+ String c value ∧ contains c key = false
               ∧ split_once c s = [key; value].
Proof.
  induction s as [|x s IH]; [discriminate|]. simpl.
  destruct (Ascii.eqb_spec x c) as [->|Hne]; simpl.
  - intros _. exists "", s. auto.
  - intros Hs. destruct (IH Hs) as (key & value & -> & Hkey & ->).
    exists (String x key), value. simpl.
    rewrite (proj2 (Ascii.eqb_neq x c) Hne), Hkey. auto.
Qed.

Lemma split_once_at c key value :
  contains c key = false →
  contains c (key +:+ String c value) = true
  ∧ split_once c (key +:+ String c value) = [key; value].
Proof.
  induction key as [|x key IH]; intros Hkey.
  - change ("" +:+ String c value) with (String c value). simpl.
    rewrite Ascii.eqb_refl. auto.
  - simpl in Hkey. apply orb_false_iff in Hkey as [Hx Hkey].
    destruct (IH Hkey) as [H1 H2].
    change (String x key +:+ String c value)
      with (String x (key +:+ String c value)).
    simpl. rewrite Hx, H1, H2. auto.
Qed.

Lemma line_field_iff line k v :
  line_field line = Some (k, v)
  ↔ ∃ key value, line = key +:+ ":" +:+ value ∧ contains ":" key = false
                 ∧ k = strip key ∧ v = strip value.
Proof.
  unfold line_field. split.
  - destruct (contains ":" line) eqn:Hc; [|discriminate].
    destruct (split_once_spec _ _ Hc) as (key & value & -> & Hkey & ->).
    intros [= <- <-]. exists key, value. auto.
  - intros (key & value & -> & Hkey & -> & ->).
    change (":" +:+ value) with (String ":" value).
    destruct (split_once_at ":" key value Hkey) as [-> ->]. reflexivity.
Qed.

(** The dictionary filled by the loop holds, key by key, what the lines
    give. *)
Lemma parse_lines_field_value lines :
  ∀ d d', parse_lines lines d = Ok d' →
  ∀ k, d' !! k = match field_value lines k with
                | Some v => Some v
                | None => d !! k
                end.
Proof.
  induction lines as [|line rest IH]; intros d d' Hrun k.
  - injection Hrun as <-. reflexivity.
  - simpl in Hrun. simpl field_value. unfold line_field.
    destruct (contains ":" line) eqn:Hc.
    + rewrite orb_false_r in Hrun.
      destruct (split_once_spec _ _ Hc) as (key & value & Hline & _ & Hsplit).
      rewrite Hsplit in Hrun |- *.
      assert (is_empty line = false) as Hne by (rewrite Hline; by destruct key).
      rewrite Hne in Hrun. rewrite (IH _ _ Hrun k).
      destruct (field_value rest k); [reflexivity|].
      destruct (decide (strip key = k)) as [<-|Hk].
      * apply lookup_insert_eq.
      * apply lookup_insert_ne, Hk.
    + rewrite orb_true_r in Hrun. rewrite (IH _ _ Hrun k).
      destruct (field_value rest k); reflexivity.
Qed.

Lemma stanza_fields_field_value e d :
  stanza_fields e = Ok d → ∀ k, d !! k = field_value (split nl e) k.
Proof.
  intros Hd k. rewrite (parse_lines_field_value _ _ _ Hd k).
  change (split (String "010" "") e) with (split nl e).
  destruct (field_value (split nl e) k); [reflexivity | apply lookup_empty].
Qed.

Lemma record_of_stanza e d n :
  stanza_fields e = Ok d → record_of n d = stanza_record n (split nl e).
Proof.
  intros Hd. unfold record_of, stanza_record.
  by rewrite !(stanza_fields_field_value e d Hd).
Qed.

Lemma field_value_drop la line lb k :
  contains ":" line = false →
  field_value (la ++ line :: lb) k = field_value (la ++ lb) k.
Proof.
  intros Hline. induction la as [|l la IH].
  - simpl. unfold line_field. rewrite Hline.
    destruct (field_value lb k); reflexivity.
  - simpl. rewrite IH. reflexivity.
Qed.

(** The last stanza of a text that carries a name gives the record kept
    under that name. *)
Lemma stanza_in_catalog content l1 e l2 n :
  split (nl +:+ nl) content = l1 ++ e :: l2 →
  field_value (split nl e) "Package" = Some n →
  (∀ e', e' ∈ l2 → field_value (split nl e') "Package" ≠ Some n) →
  ∃ packages, _parse_packages content = Ok packages
              ∧ packages !! n = Some (stanza_record n (split nl e)).
Proof.
  intros Hsplit Hn Hl2.
  destruct (parse_entries_total (split (nl +:+ nl) content) ∅) as [packages Hrun].
  exists packages. split; [exact Hrun|].
  rewrite Hsplit, parse_entries_app in Hrun.
  destruct (parse_entries l1 ∅) as [mid|]; [|discriminate].
  destruct (stanza_fields_total e) as [d Hd].
  assert (d !! "Package" = Some n) as Hdn
    by (rewrite (stanza_fields_field_value e d Hd); exact Hn).
  simpl in Hrun. rewrite (parse_entry_package _ _ _ _ Hd Hdn) in Hrun.
  rewrite (parse_entries_keep l2 n) with (packages := <[n := record_of n d]> mid)
    (packages' := packages); [| |exact Hrun].
  - rewrite lookup_insert_eq, (record_of_stanza e d n Hd). reflexivity.
  - intros e' d' He' Hd'. rewrite (stanza_fields_field_value e' d' Hd').
    apply Hl2, He'.
Qed.

(** *** The parser's properties *)

(** C8: the parser returns a catalog on every input and raises nothing.
    Every record of the catalog comes from a stanza whose lines give
    [Package] its name, so a stanza without [Package] adds no record. The
    last stanza of a name adds a record under that name, with an empty
    dependency list when its lines give no [Depends]. A line without colon
    changes nothing: a stanza holding one yields the record of its other
    lines. A line gives a key exactly when it holds a colon: the key is what
    stands before the first colon, the value what stands after it, both
    stripped. *)
Theorem parse_total_and_robust :
  (∀ content, ∃ packages, _parse_packages content = Ok packages)
  ∧ (∀ content packages n p,
       _parse_packages content = Ok packages → packages !! n = Some p →
       ∃ e, e ∈ split (nl +:+ nl) content
            ∧ field_value (split nl e) "Package" = Some n)
  ∧ (∀ content l1 e l2 n,
       split (nl +:+ nl) content = l1 ++ e :: l2 →
       field_value (split nl e) "Package" = Some n →
       (∀ e', e' ∈ l2 → field_value (split nl e') "Package" ≠ Some n) →
       ∃ packages p,
         _parse_packages content = Ok packages ∧ packages !! n = Some p
         ∧ name p = n
         ∧ (field_value (split nl e) "Depends" = None → depends p = [])
         ∧ (∀ value, field_value (split nl e) "Depends" = Some value →
                     depends p = parse_depends value))
  ∧ (∀ content l1 e l2 la line lb n,
       split (nl +:+ nl) content = l1 ++ e :: l2 →
       split nl e = la ++ line :: lb → contains ":" line = false →
       field_value (la ++ lb) "Package" = Some n →
       (∀ e', e' ∈ l2 → field_value (split nl e') "Package" ≠ Some n) →
       ∃ packages,
         _parse_packages content = Ok packages
         ∧ packages !! n = Some (stanza_record n (la ++ lb)))
  ∧ (∀ line k v,
       line_field line = Some (k, v)
       ↔ ∃ key value, line = key +:+ ":" +:+ value ∧ contains ":" key = false
                      ∧ k = strip key ∧ v = strip value).
Proof.
  split; [intros content; apply parse_entries_total|].
  split.
  { intros content packages n p Hrun Hp.
    destruct (parse_entries_origin _ _ _ _ _ Hrun Hp)
      as [Habs|(e & d & Hin & Hd & Hn & _)].
    - rewrite lookup_empty in Habs. discriminate.
    - exists e. split; [exact Hin|].
      rewrite <- (stanza_fields_field_value e d Hd). exact Hn. }
  split.
  { intros content l1 e l2 n Hsplit Hn Hl2.
    destruct (stanza_in_catalog content l1 e l2 n Hsplit Hn Hl2)
      as (packages & Hrun & Hp).
    exists packages, (stanza_record n (split nl e)).
    split; [exact Hrun|]. split; [exact Hp|]. split; [reflexivity|].
    unfold stanza_record. simpl.
    split; [intros ->; reflexivity | intros value ->; reflexivity]. }
  split; [|exact line_field_iff].
  intros content l1 e l2 la line lb n Hsplit Hlines Hline Hn Hl2.
  assert (∀ k, field_value (split nl e) k = field_value (la ++ lb) k) as Hsame
    by (intros k; rewrite Hlines; apply field_value_drop, Hline).
  destruct (stanza_in_catalog content l1 e l2 n Hsplit) as (packages & Hrun & Hp);
    [by rewrite Hsame | exact Hl2 |].
  exists packages. split; [exact Hrun|]. rewrite Hp.
  unfold stanza_record. by rewrite !Hsame.
Qed.

(** The theorem on the sample text: the stanza of zed, without [Depends],
    and the stanza of nmap, with a line without colon. *)
Lemma parse_total_and_robust_witness :
  (∃ packages p,
     _parse_packages sample = Ok packages ∧ packages !! "zed" = Some p
     ∧ name p = "zed" ∧ depends p = [])
  ∧ (∃ packages,
       _parse_packages sample = Ok packages
       ∧ packages !! "nmap"
         = Some (mkPackage "nmap" "7.94" "amd64" ""
                   [("libc6", ">= 2.38"); ("liblua5.4-0", "");
                    ("libssl3t64", ">=3"); ("a|b", "")])).
Proof.
  destruct parse_total_and_robust as (_ & _ & Hrecord & Hjunk & _). split.
  - destruct (Hrecord sample
                ["Package: nmap" +:+ nl +:+ "Version: 7.94" +:+ nl
                 +:+ "no separator here" +:+ nl
                 +:+ "Depends: libc6 (>= 2.38), liblua5.4-0 | liblua5.3-0, libssl3t64(>=3),, a|b , (x)";
                 nl +:+ "Version: 3"]
                ("Package: zed" +:+ nl) [] "zed")
      as (packages & p & Hrun & Hp & Hname & Hnodep & _).
    + vm_compute. reflexivity.
    + vm_compute. reflexivity.
    + intros e' He'. by apply elem_of_nil in He'.
    + exists packages, p. repeat split; try assumption.
      apply Hnodep. vm_compute. reflexivity.
  - destruct (Hjunk sample []
                ("Package: nmap" +:+ nl +:+ "Version: 7.94" +:+ nl
                 +:+ "no separator here" +:+ nl
                 +:+ "Depends: libc6 (>= 2.38), liblua5.4-0 | liblua5.3-0, libssl3t64(>=3),, a|b , (x)")
                [nl +:+ "Version: 3"; "Package: zed" +:+ nl]
                ["Package: nmap"; "Version: 7.94"] "no separator here"
                ["Depends: libc6 (>= 2.38), liblua5.4-0 | liblua5.3-0, libssl3t64(>=3),, a|b , (x)"]
                "nmap")
      as (packages & Hrun & Hp).
    + vm_compute. reflexivity.
    + vm_compute. reflexivity.
    + reflexivity.
    + vm_compute. reflexivity.
    + intros e' He'.
      apply elem_of_cons in He' as [->|He'];
        [|apply list_elem_of_singleton in He' as ->]; vm_compute; discriminate.
    + exists packages. split; [exact Hrun|]. rewrite Hp. vm_compute. reflexivity.
Defined.

(** A text with a line without colon inside the first stanza, a stanza
    without [Package] and a stanza with [Package] alone. *)
Example parse_sample :
  _parse_packages sample
  = Ok (<["nmap" := mkPackage "nmap" "7.94" "amd64" ""
                     [("libc6", ">= 2.38"); ("liblua5.4-0", "");
                      ("libssl3t64", ">=3"); ("a|b", "")]]>
          (<["zed" := mkPackage "zed" "" "amd64" "" []]> ∅)).
Proof. vm_compute. reflexivity. Qed.

(** C9, as stated, fails: a value with a trailing comma has two slots and
    yields one pair; the name of the slot [foo(>=1) x] is [foo], not its
    first whitespace-delimited token; and the alternatives of [a|b] are
    kept inside the name. *)
Lemma depends_slots_counterexample :
  split "," "a," = ["a"; ""] ∧ parse_depends "a," = [("a", "")]
  ∧ parse_depends "foo(>=1) x" = [("foo", ">=1")]
  ∧ parse_depends "a|b" = [("a|b", "")].
Proof. repeat split; vm_compute; reflexivity. Qed.

Lemma match_constraint_iff rest cs :
  match_constraint rest = Some cs
  ↔ ∃ ws tail, string_forall is_space ws = true ∧ cs ≠ ""
               ∧ string_forall constraint_char cs = true
               ∧ rest = ws +:+ "(" +:+ cs +:+ ")" +:+ tail.
Proof.
  unfold match_constraint. split.
  - destruct (span is_space rest) as [ws r1] eqn:E1.
    apply span_spec in E1 as (-> & Hws & _). simpl.
    destruct r1 as [|p r1]; [discriminate|].
    destruct (Ascii.eqb_spec p "(") as [->|_]; [|discriminate].
    destruct (span constraint_char r1) as [c r2] eqn:E2.
    apply span_spec in E2 as (-> & Hc & _).
    destruct c as [|c0 c]; [discriminate|].
    destruct r2 as [|q r2]; [discriminate|].
    destruct (Ascii.eqb_spec q ")") as [->|_]; [|discriminate].
    intros [= <-]. exists ws, r2. repeat split; [exact Hws | discriminate | exact Hc].
  - intros (ws & tail & Hws & Hne & Hcs & ->).
    rewrite (span_app is_space ws ("(" +:+ cs +:+ ")" +:+ tail) Hws eq_refl).
    change (snd (ws, "(" +:+ cs +:+ ")" +:+ tail))
      with (String "(" (cs +:+ String ")" tail)).
    cbv beta iota. rewrite Ascii.eqb_refl.
    rewrite (span_app constraint_char cs (String ")" tail) Hcs eq_refl).
    destruct cs as [|c0 cs]; [contradiction|]. reflexivity.
Qed.

(** C9, amended: the value is split on commas and every slot, stripped,
    yields at most one pair, so never more pairs than slots; a slot yields
    the pair (n, c) exactly when n is its longest prefix free of whitespace
    and of the opening parenthesis, n is not empty, and c is the content of
    a parenthesized group that follows n after optional whitespace, or the
    empty string when no such group follows; such a group is an opening
    parenthesis, one or more characters other than the closing parenthesis,
    and a closing parenthesis. What follows in the slot is dropped. *)
Theorem depends_slot_shape :
  (∀ value,
     parse_depends value = omap (λ slot, match_dep (strip slot)) (split "," value)
     ∧ length (parse_depends value) ≤ length (split "," value))
  ∧ (∀ slot n c,
       match_dep slot = Some (n, c)
       ↔ n ≠ "" ∧ string_forall name_char n = true
         ∧ ∃ rest, slot = n +:+ rest ∧ stops name_char rest = true
                   ∧ c = default "" (match_constraint rest))
  ∧ (∀ rest cs,
       match_constraint rest = Some cs
       ↔ ∃ ws tail, string_forall is_space ws = true ∧ cs ≠ ""
                    ∧ string_forall constraint_char cs = true
                    ∧ rest = ws +:+ "(" +:+ cs +:+ ")" +:+ tail).
Proof.
  split; [|split; [|exact match_constraint_iff]].
  - intros value. split; [reflexivity|]. unfold parse_depends.
    generalize (split "," value). intros l.
    induction l as [|slot l IH]; [reflexivity|].
    change (omap (λ slot, match_dep (strip slot)) (slot :: l))
      with (match match_dep (strip slot) with
            | Some y => y :: omap (λ slot, match_dep (strip slot)) l
            | None => omap (λ slot, match_dep (strip slot)) l
            end).
    destruct (match_dep (strip slot)); simpl length; lia.
  - intros slot n c. unfold match_dep. split.
    + destruct (span name_char slot) as [a rest] eqn:E.
      apply span_spec in E as (-> & Ha & Hrest).
      destruct a as [|a0 a]; [discriminate|]. intros [= <- <-].
      split; [discriminate|]. split; [exact Ha|].
      exists rest. repeat split. exact Hrest.
    + intros (Hne & Hn & rest & -> & Hrest & ->).
      rewrite (span_app name_char n rest Hn Hrest).
      destruct n as [|n0 n]; [contradiction|]. reflexivity.
Qed.

(** C10: the last stanza of a text that carries a package name yields the
    record kept under that name; its version and its filename are the values
    its lines give to [Version] and [Filename], and the empty string when
    they give none; its architecture is the value they give to
    [Architecture], and amd64 when they give none. *)
Theorem parse_record_defaults content l1 e l2 n :
  split (nl +:+ nl) content = l1 ++ e :: l2 →
  field_value (split nl e) "Package" = Some n →
  (∀ e', e' ∈ l2 → field_value (split nl e') "Package" ≠ Some n) →
  ∃ packages p,
    _parse_packages content = Ok packages ∧ packages !! n = Some p
    ∧ name p = n
    ∧ version p = default "" (field_value (split nl e) "Version")
    ∧ filename p = default "" (field_value (split nl e) "Filename")
    ∧ architecture p = default "amd64" (field_value (split nl e) "Architecture")
    ∧ (field_value (split nl e) "Version" = None → version p = "")
    ∧ (field_value (split nl e) "Filename" = None → filename p = "")
    ∧ (field_value (split nl e) "Architecture" = None → architecture p = "amd64").
Proof.
  intros Hsplit Hn Hl2.
  destruct (stanza_in_catalog content l1 e l2 n Hsplit Hn Hl2)
    as (packages & Hrun & Hp).
  exists packages, (stanza_record n (split nl e)).
  split; [exact Hrun|]. split; [exact Hp|]. unfold stanza_record. simpl.
  repeat split; intros ->; reflexivity.
Qed.

Lemma parse_record_defaults_witness :
  ∃ packages p,
    _parse_packages partial_text = Ok packages ∧ packages !! "vim" = Some p
    ∧ name p = "vim" ∧ version p = "" ∧ filename p = ""
    ∧ architecture p = "arm64".
Proof.
  destruct (parse_record_defaults partial_text []
              ("Package: vim" +:+ nl +:+ "Architecture: arm64")
              ["Package: zsh" +:+ nl +:+ "Version: 5.9"] "vim")
    as (packages & p & Hrun & Hp & Hname & Hv & Hf & Ha & _).
  - vm_compute. reflexivity.
  - vm_compute. reflexivity.
  - intros e' He'. apply list_elem_of_singleton in He' as ->.
    vm_compute. discriminate.
  - exists packages, p. repeat split; assumption.
Defined.

End Parser.

(** ** The install command *)

Module Installer.

Import Resolver.

(** What [install] prints; the colour codes and the layout of the texts are
    left out. *)
Inductive message :=
| MsgProtected (name : string)
    (* Error: '<name>' is a protected system package *)
| MsgNotFound (name : string)
    (* Package '<name>' not found *)
| MsgAlreadyInstalled (name : string)
    (* '<name>' is already installed *)
| MsgInstalledVersion (version : string)
    (* Installed version: <version> *)
| MsgAnalyzing (name : string)
    (* Analyzing dependencies for <name>... *)
| MsgNeed (count : nat)
    (* Need to install <count> dependencies: *)
| MsgItem (dep : string)
    (*   - <dep> *)
| MsgCancelled
    (* Installation cancelled *)
| MsgInstallingDependencies
    (* Installing dependencies... *)
| MsgInstallingDependency (dep_name : string)
    (* Installing dependency: <dep_name> *)
| MsgFailed (dep_name : string)
    (* Warning: Failed to install <dep_name> *)
| MsgSatisfied
    (* All dependencies satisfied *)
| MsgInstallingMain (name : string).
    (* Installing main package: <name> *)

(** The questions asked through [input]. *)
Inductive prompt :=
| AskReinstall
    (* Reinstall anyway? (yes/no): *)
| AskContinue
    (* Continue with installation? (yes/no): *)
| AskInstall (name version : string).
    (* Install <name> (<version>)? (yes/no): *)

(** [c.lower()] for a code point below 256. *)
Definition lower_char (c : ascii) : ascii :=
  let n := nat_of_ascii c in
  if (Nat.leb 65 n && Nat.leb n 90)
     || (Nat.leb 192 n && Nat.leb n 222 && negb (Nat.eqb n 215))
  then ascii_of_nat (n + 32) else c.

Fixpoint lower (s : string) : string :=
  match s with
  | EmptyString => EmptyString
  | String c s' => String (lower_char c) (lower s')
  end.

(** [response.strip().lower() in ['yes', 'y']]. *)
Definition says_yes (response : string) : bool :=
  let response := lower (Parser.strip response) in
  bool_decide (response = "yes") || bool_decide (response = "y").

Section install.
(** The terminal, the network and dpkg, threaded through the calls. *)
Variable World : Type.
Variable print : message → World → World.
Variable input : prompt → World → string * World.
Variable _install_single : string → World → bool * World.

Variable packages : gmap string Package.
Variable installed : gmap string InstalledPackage.

(** [for dep in deps_to_install: print(f"  - {dep}")]. *)
Fixpoint print_items (deps : list string) (w : World) : World :=
  match deps with
  | [] => w
  | dep :: rest => print_items rest (print (MsgItem dep) w)
  end.

(** [for dep_name in deps_to_install: ...]. *)
Fixpoint install_dependencies (deps : list string) (w : World) : World :=
  match deps with
  | [] => w
  | dep_name :: rest =>
      let w := print (MsgInstallingDependency dep_name) w in
      let '(ok, w) := _install_single dep_name w in
      let w := if ok then w else print (MsgFailed dep_name) w in
      install_dependencies rest w
  end.

(** The part of [install] after the reinstall question. *)
Definition install_plan (name : string) (pkg : Package) (w : World) : bool * World :=
  let w := print (MsgAnalyzing name) w in
  let deps_to_install :=
    _resolve_dependencies packages installed FORBIDDEN_PACKAGES name in
  match deps_to_install with
  | _ :: _ =>
      let w := print (MsgNeed (length deps_to_install)) w in
      let w := print_items deps_to_install w in
      let '(response, w) := input AskContinue w in
      if negb (says_yes response) then (false, print MsgCancelled w)
      else
        let w := print MsgInstallingDependencies w in
        let w := install_dependencies deps_to_install w in
        _install_single name (print (MsgInstallingMain name) w)
  | [] =>
      let w := print MsgSatisfied w in
      let '(response, w) := input (AskInstall name (version pkg)) w in
      if negb (says_yes response) then (false, w)
      else _install_single name (print (MsgInstallingMain name) w)
  end.

(** [PackageInstaller.install]. *)
Definition install (name : string) (w : World) : bool * World :=
  if decide (name ∈ FORBIDDEN_PACKAGES) then (false, print (MsgProtected name) w)
  else
    match packages !! name with
    | None => (false, print (MsgNotFound name) w)
    | Some pkg =>
        match installed !! name with
        | Some ip =>
            let w := print (MsgAlreadyInstalled name) w in
            let w := print (MsgInstalledVersion (inst_version ip)) w in
            let '(response, w) := input AskReinstall w in
            if negb (says_yes response) then (true, w)
            else install_plan name pkg w
        | None => install_plan name pkg w
        end
    end.
End install.

(** A world that records what happens and answers yes to every question. *)
Inductive event :=
| Printed (m : message)
| Asked (q : prompt)
| Installed (name : string).

Definition log_print (m : message) (w : list event) : list event := w ++ [Printed m].
Definition log_input (q : prompt) (w : list event) : string * list event :=
  ("yes", w ++ [Asked q]).
Definition log_install (name : string) (w : list event) : bool * list event :=
  (true, w ++ [Installed name]).

(** C4, as stated, fails: Z has no record in the chain catalog, C has one
    without dependencies, and the resolver returns the same empty list for
    both. *)
Lemma unknown_root_looks_empty :
  chain_catalog !! "Z" = None
  ∧ chain_catalog !! "C" = Some (pkg "C" [])
  ∧ _resolve_dependencies chain_catalog ∅ FORBIDDEN_PACKAGES "Z" = []
  ∧ _resolve_dependencies chain_catalog ∅ FORBIDDEN_PACKAGES "C" = [].
Proof. repeat split; vm_compute; reflexivity. Qed.

(** C4, amended: for a root without a record the resolver returns the empty
    list, as it does for a root without dependencies; the distinct outcome
    comes from [install], which looks the root up first: for a root that is
    not protected it prints the not-found message and returns False, asking
    nothing, resolving nothing and installing nothing. *)
Theorem unknown_root_outcome (World : Type) (print : message → World → World)
    (input : prompt → World → string * World)
    (_install_single : string → World → bool * World)
    (packages : gmap string Package) (installed : gmap string InstalledPackage)
    (root : string) (w : World) :
  packages !! root = None →
  (∀ forbidden, _resolve_dependencies packages installed forbidden root = [])
  ∧ (root ∉ FORBIDDEN_PACKAGES →
     install World print input _install_single packages installed root w
     = (false, print (MsgNotFound root) w)).
Proof.
  intros Hroot. split.
  - intros forbidden.
    apply (resolve_fuel_run packages installed forbidden 1 root [] ({[root]} ∪ ∅)).
    simpl. rewrite decide_False by set_solver. rewrite Hroot. reflexivity.
  - intros Hf. unfold install. rewrite decide_False by exact Hf.
    rewrite Hroot. reflexivity.
Qed.

Lemma unknown_root_outcome_witness :
  _resolve_dependencies chain_catalog ∅ FORBIDDEN_PACKAGES "Z" = []
  ∧ install (list event) log_print log_input log_install chain_catalog ∅ "Z" []
    = (false, [Printed (MsgNotFound "Z")])
  ∧ install (list event) log_print log_input log_install chain_catalog ∅ "C" []
    = (true, [Printed (MsgAnalyzing "C"); Printed MsgSatisfied;
              Asked (AskInstall "C" "1.0"); Printed (MsgInstallingMain "C");
              Installed "C"]).
Proof.
  destruct (unknown_root_outcome (list event) log_print log_input log_install
              chain_catalog ∅ "Z" []) as [Hres Hinst].
  - vm_compute. reflexivity.
  - split; [apply Hres|]. split.
    + apply Hinst. vm_compute. intros H. discriminate H.
    + vm_compute. reflexivity.
Defined.

End Installer.

(** ** Catalog cache *)

Module Cache.

(** The file system as the cache code sees it: the directories that exist
    and the content of every file. *)
Record FS := mkFS {
  dirs : gset string;
  files : gmap string string
}.

(** File-system calls; [Replace] is the rename-into-place of [os.replace],
    which the source never issues. *)
Inductive fs_op :=
| MkdirParents (dir : string)
    (* Path.mkdir(parents=True, exist_ok=True) *)
| OpenWrite (path : string)
    (* open(path, 'wb'): creates the file or cuts it to length zero *)
| WriteBytes (path data : string)
    (* f.write(data), at the end of the file *)
| CloseFile (path : string)
| Replace (src dst : string).

Definition step (fs : FS) (op : fs_op) : FS :=
  match op with
  | MkdirParents dir => mkFS ({[dir]} ∪ dirs fs) (files fs)
  | OpenWrite path => mkFS (dirs fs) (<[path := ""]> (files fs))
  | WriteBytes path data =>
      mkFS (dirs fs) (<[path := default "" (files fs !! path) +:+ data]> (files fs))
  | CloseFile path => fs
  | Replace src dst =>
      match files fs !! src with
      | Some data => mkFS (dirs fs) (<[dst := data]> (delete src (files fs)))
      | None => fs
      end
  end.

Definition run (ops : list fs_op) (fs : FS) : FS := fold_left step ops fs.

Definition is_replace (op : fs_op) : bool :=
  match op with Replace _ _ => true | _ => false end.

(** The paths an operation creates or changes. *)
Definition targets (op : fs_op) : list string :=
  match op with
  | MkdirParents dir => [dir]
  | OpenWrite path | WriteBytes path _ | CloseFile path => [path]
  | Replace src dst => [src; dst]
  end.

(** The first [n] characters of a string, and what follows them. *)
Fixpoint take_s (n : nat) (s : string) : string :=
  match n, s with
  | S n', String c s' => String c (take_s n' s')
  | _, _ => EmptyString
  end.

Fixpoint drop_s (n : nat) (s : string) : string :=
  match n, s with
  | S n', String _ s' => drop_s n' s'
  | _, _ => s
  end.

(** The pieces in which the buffered file hands [data] to the file system:
    pieces of the given sizes in turn, then what is left. *)
Fixpoint pieces (sizes : list nat) (data : string) : list string :=
  match sizes with
  | [] => [data]
  | n :: rest => take_s n data :: pieces rest (drop_s n data)
  end.

(** The pieces put end to end. *)
Definition glue (ps : list string) : string := foldr String.app "" ps.

Section cache.
(** [Path.home()], [pickle.dumps], and the sizes of the pieces in which
    the bytes of the dump reach the file; any sizes are possible. *)
Variable home : string.
Variable dumps : gmap string Package → string.
Variable sizes : list nat.

Definition UBUNTU_VERSION : string := "noble".
Definition CACHE_DIR : string := home +:+ "/.cache/packhub".
Definition PACKAGES_CACHE : string :=
  CACHE_DIR +:+ "/packages_" +:+ UBUNTU_VERSION +:+ ".db".

(** [PackageDatabase._save_to_cache], as the calls it makes in order;
    [pickle.dump] writes through the file object, piece by piece. *)
Definition _save_to_cache (packages : gmap string Package) : list fs_op :=
  [ MkdirParents CACHE_DIR; OpenWrite PACKAGES_CACHE ]
  ++ (WriteBytes PACKAGES_CACHE <$> pieces sizes (dumps packages))
  ++ [ CloseFile PACKAGES_CACHE ].

(** The file system left by a save that fails or is killed after its
    first [k] calls. *)
Definition interrupted_save (k : nat) (packages : gmap string Package) (fs : FS) : FS :=
  run (take k (_save_to_cache packages)) fs.
End cache.

(** *** Facts on the writes *)

Lemma append_assoc (a b c : string) : (a +:+ b) +:+ c = a +:+ (b +:+ c).
Proof.
  induction a as [|x a IH]; [reflexivity|].
  change (String x ((a +:+ b) +:+ c) = String x (a +:+ (b +:+ c))).
  by rewrite IH.
Qed.

Lemma append_nil_r (a : string) : a +:+ "" = a.
Proof.
  induction a as [|x a IH]; [reflexivity|].
  change (String x (a +:+ "") = String x a). by rewrite IH.
Qed.

Lemma take_drop_s n : ∀ s, take_s n s +:+ drop_s n s = s.
Proof.
  induction n as [|n IH]; intros s; [reflexivity|].
  destruct s as [|c s]; [reflexivity|]. simpl take_s. simpl drop_s.
  change (String c (take_s n s +:+ drop_s n s) = String c s). by rewrite IH.
Qed.

Lemma glue_pieces sizes : ∀ data, glue (pieces sizes data) = data.
Proof.
  induction sizes as [|n sizes IH]; intros data.
  - apply append_nil_r.
  - change (take_s n data +:+ glue (pieces sizes (drop_s n data)) = data).
    rewrite IH. apply take_drop_s.
Qed.

Lemma glue_app ps qs : glue (ps ++ qs) = glue ps +:+ glue qs.
Proof.
  induction ps as [|p ps IH]; [reflexivity|].
  change (p +:+ glue (ps ++ qs) = (p +:+ glue ps) +:+ glue qs).
  by rewrite IH, append_assoc.
Qed.

Lemma run_app ops1 ops2 fs : run (ops1 ++ ops2) fs = run ops2 (run ops1 fs).
Proof. apply fold_left_app. Qed.

(** Writes to one file append to it and touch nothing else. *)
Lemma run_writes path ps :
  ∀ fs before, files fs !! path = Some before →
  files (run (WriteBytes path <$> ps) fs) !! path = Some (before +:+ glue ps)
  ∧ (∀ other, other ≠ path →
       files (run (WriteBytes path <$> ps) fs) !! other = files fs !! other)
  ∧ dirs (run (WriteBytes path <$> ps) fs) = dirs fs.
Proof.
  induction ps as [|p ps IH]; intros fs before Hb.
  - simpl. rewrite append_nil_r. auto.
  - change (run (WriteBytes path <$> p :: ps) fs)
      with (run (WriteBytes path <$> ps) (step fs (WriteBytes path p))).
    destruct (IH (step fs (WriteBytes path p)) (before +:+ p)) as (H1 & H2 & H3).
    { simpl. rewrite Hb. apply lookup_insert_eq. }
    split; [|split].
    + rewrite H1. f_equal. apply append_assoc.
    + intros other Ho. rewrite (H2 other Ho). simpl.
      apply lookup_insert_ne. congruence.
    + rewrite H3. reflexivity.
Qed.

Lemma run_close_prefix m path fs : run (take m [CloseFile path]) fs = fs.
Proof. destruct m as [|m]; [reflexivity|]. simpl. by rewrite take_nil. Qed.

(** The cache file once the save has passed the opening and [j] of the
    calls that follow it. *)
Lemma after_open home dumps sizes packages fs j :
  files (interrupted_save home dumps sizes (S (S j)) packages fs)
    !! PACKAGES_CACHE home
  = Some (glue (take j (pieces sizes (dumps packages))))
  ∧ ∀ other, other ≠ PACKAGES_CACHE home →
      files (interrupted_save home dumps sizes (S (S j)) packages fs) !! other
      = files fs !! other.
Proof.
  unfold interrupted_save, _save_to_cache.
  change (take (S (S j))
            ([MkdirParents (CACHE_DIR home); OpenWrite (PACKAGES_CACHE home)]
             ++ (WriteBytes (PACKAGES_CACHE home) <$> pieces sizes (dumps packages))
             ++ [CloseFile (PACKAGES_CACHE home)]))
    with ([MkdirParents (CACHE_DIR home); OpenWrite (PACKAGES_CACHE home)]
          ++ take j ((WriteBytes (PACKAGES_CACHE home) <$> pieces sizes (dumps packages))
                     ++ [CloseFile (PACKAGES_CACHE home)])).
  rewrite take_app, <- fmap_take, !run_app, run_close_prefix.
  set (opened := run [MkdirParents (CACHE_DIR home); OpenWrite (PACKAGES_CACHE home)] fs).
  destruct (run_writes (PACKAGES_CACHE home)
              (take j (pieces sizes (dumps packages))) opened "")
    as (H1 & H2 & _).
  { unfold opened. simpl. apply lookup_insert_eq. }
  split; [exact H1|].
  intros other Ho. rewrite (H2 other Ho). unfold opened. simpl.
  apply lookup_insert_ne. congruence.
Qed.

(** A save that runs to its end leaves the serialized catalog in the cache
    file. *)
Lemma save_completes home dumps sizes packages fs :
  files (run (_save_to_cache home dumps sizes packages) fs) !! PACKAGES_CACHE home
  = Some (dumps packages).
Proof.
  pose proof (after_open home dumps sizes packages fs
                (S (length (pieces sizes (dumps packages))))) as [H _].
  unfold interrupted_save in H. rewrite take_ge in H.
  - rewrite H, take_ge by lia. f_equal. apply glue_pieces.
  - unfold _save_to_cache. rewrite !length_app, length_fmap. simpl. lia.
Qed.

(** C3, as stated, fails: with a valid cache on disk, a save interrupted
    after the file was opened for writing leaves an empty cache file, which
    is neither the previous cache nor the new one. *)
Lemma save_not_atomic :
  let old := mkFS ∅ {[ PACKAGES_CACHE "/root" := "previous cache" ]} in
  let fs := interrupted_save "/root" (λ _, "new cache") [] 2 ∅ old in
  files old !! PACKAGES_CACHE "/root" = Some "previous cache"
  ∧ files fs !! PACKAGES_CACHE "/root" = Some ""
  ∧ files fs !! PACKAGES_CACHE "/root" ≠ files old !! PACKAGES_CACHE "/root"
  ∧ files fs !! PACKAGES_CACHE "/root" ≠ Some "new cache".
Proof. repeat split; vm_compute; congruence. Qed.

(** C3, amended: the save opens the cache file itself for writing and dumps
    the serialized catalog into it; it writes no temporary file and renames
    nothing. A save that runs to its end leaves the serialized catalog in
    the cache file; one that stops before the file is opened leaves every
    file as it was; one that stops later leaves in the cache file a part of
    the serialized catalog, from its start, of any length from nothing to
    the whole, whatever the file held before, and the other files as they
    were. *)
Theorem save_in_place (home : string) (dumps : gmap string Package → string)
    (sizes : list nat) (packages : gmap string Package) (fs : FS) :
  let cache := PACKAGES_CACHE home in
  let ops := _save_to_cache home dumps sizes packages in
  Forall (λ op, is_replace op = false
                ∧ ∀ path, path ∈ targets op →
                          path = cache ∨ path = CACHE_DIR home) ops
  ∧ files (run ops fs) !! cache = Some (dumps packages)
  ∧ (∀ k, k ≤ 1 →
       files (interrupted_save home dumps sizes k packages fs) = files fs)
  ∧ (∀ k, 2 ≤ k →
       (∃ written rest,
          files (interrupted_save home dumps sizes k packages fs) !! cache
          = Some written
          ∧ dumps packages = written +:+ rest)
       ∧ ∀ path, path ≠ cache →
           files (interrupted_save home dumps sizes k packages fs) !! path
           = files fs !! path)
  ∧ (∀ n, files (interrupted_save home dumps [n] 3 packages fs) !! cache
          = Some (take_s n (dumps packages))).
Proof.
  intros cache ops. subst cache ops. split; [|split; [|split; [|split]]].
  - unfold _save_to_cache. rewrite !Forall_app. split; [|split].
    + repeat (apply Forall_cons; split;
              [split; [reflexivity|];
               intros path Hp; apply list_elem_of_singleton in Hp; subst; auto|]).
      apply Forall_nil_2.
    + apply Forall_fmap, Forall_forall. intros p _. split; [reflexivity|].
      intros path Hp. apply list_elem_of_singleton in Hp. subst. auto.
    + apply Forall_cons. split; [|apply Forall_nil_2]. split; [reflexivity|].
      intros path Hp. apply list_elem_of_singleton in Hp. subst. auto.
  - apply save_completes.
  - intros k Hk. destruct k as [|[|k]]; [reflexivity | reflexivity | lia].
  - intros k Hk. destruct k as [|[|j]]; [lia | lia |].
    destruct (after_open home dumps sizes packages fs j) as [H1 H2].
    split; [|exact H2].
    exists (glue (take j (pieces sizes (dumps packages)))),
           (glue (drop j (pieces sizes (dumps packages)))).
    split; [exact H1|].
    rewrite <- glue_app, take_drop. symmetry. apply glue_pieces.
  - intros n. destruct (after_open home dumps [n] packages fs 1) as [H1 _].
    rewrite H1. simpl. by rewrite append_nil_r.
Qed.

End Cache.

(** ** More on the resolver: what the plan is *)

Module ResolverPlan.

Import Resolver.

Section plan.
Variable packages : gmap string Package.
Variable installed : gmap string InstalledPackage.
Variable forbidden : gset string.

Local Abbreviation edge := (dep_edge packages installed forbidden).
Local Abbreviation resolve_loop := (resolve_loop installed forbidden).
Local Abbreviation resolve_fuel := (resolve_fuel packages installed forbidden).

(** Every name a call returns was marked visited by it and is reached from
    the name of the call by followed edges. *)
Definition reach_post (n : string) (out : list string) (V' : gset string) : Prop :=
  ∀ d, d ∈ out → d ∈ V' ∧ tc edge n d.

Lemma resolve_loop_reach rec n deps :
  (∀ d V out V', rec d V = Some (out, V') →
     call_post packages installed forbidden d V out V' ∧ reach_post d out V') →
  (∀ d c, (d, c) ∈ deps → skipped installed forbidden d = false → edge n d) →
  ∀ T V out V', resolve_loop rec deps T V = Some (out, V') →
  V ⊆ V' ∧ ∀ d, d ∈ out → d ∈ T ∨ (d ∈ V' ∧ tc edge n d).
Proof.
  intros Hrec. induction deps as [|[d c] rest IH]; intros Hdeps T V out V' Hrun.
  - simpl in Hrun. injection Hrun as <- <-. split; [set_solver | auto].
  - assert (∀ d' c', (d', c') ∈ rest → skipped installed forbidden d' = false →
                     edge n d') as Hrest
      by (intros d' c' Hd'; eapply Hdeps; right; exact Hd').
    destruct (skipped installed forbidden d) eqn:Hs.
    + rewrite resolve_loop_skip in Hrun by exact Hs. eapply IH; eassumption.
    + rewrite resolve_loop_descend in Hrun by exact Hs.
      destruct (rec d V) as [[sub V1]|] eqn:Hcall; [|discriminate].
      destruct (Hrec _ _ _ _ Hcall) as ((HV1 & Hd1 & _) & Hreach).
      destruct (IH Hrest _ _ _ _ Hrun) as (HV' & Hout).
      assert (edge n d) as Hnd by (eapply Hdeps; [left | exact Hs]).
      split; [set_solver|].
      intros x Hx. destruct (Hout x Hx) as [Hx'|Hx']; [|right; exact Hx'].
      apply elem_of_append_new in Hx' as [Hx'| ->].
      * apply elem_of_merge in Hx' as [Hx'|Hx']; [left; exact Hx'|].
        right. destruct (Hreach x Hx') as [Hv Htc].
        split; [set_solver | eapply tc_l; eassumption].
      * right. split; [set_solver | apply tc_once, Hnd].
Qed.

Lemma resolve_fuel_reach fuel :
  ∀ n V out V', resolve_fuel fuel n V = Some (out, V') → reach_post n out V'.
Proof.
  induction fuel as [|fuel IH]; intros n V out V' Hrun; [discriminate|].
  simpl in Hrun. destruct (decide (n ∈ V)) as [Hin|Hnin].
  - injection Hrun as <- <-. intros d Hd. by apply elem_of_nil in Hd.
  - destruct (packages !! n) as [p|] eqn:Hp.
    + destruct (resolve_loop_reach (Resolver.resolve_fuel packages installed forbidden fuel)
                  n (depends p)) with (T := @nil string) (V := {[n]} ∪ V)
                  (out := out) (V' := V') as [_ Hout].
      * intros d V1 sub V2 Hcall.
        split; [eapply resolve_fuel_post | eapply IH]; exact Hcall.
      * intros d c Hd Hs. exists p, c. auto.
      * exact Hrun.
      * intros d Hd. destruct (Hout d Hd) as [Hd'|Hd']; [|exact Hd'].
        by apply elem_of_nil in Hd'.
    + injection Hrun as <- <-. intros d Hd. by apply elem_of_nil in Hd.
Qed.
End plan.

(** The calls of a resolution never nest deeper than the number of catalog
    names plus one, cycles included: given room for that many nested calls
    the resolver returns, and what it returns does not depend on how much
    more room there is. *)
Theorem resolve_depth_bound packages installed forbidden root depth :
  size packages < depth →
  resolve_fuel packages installed forbidden depth root ∅
  = Some (_resolve_dependencies packages installed forbidden root,
          resolve_visited packages installed forbidden root).
Proof.
  intros Hdepth.
  pose proof (resolve_run_eq packages installed forbidden root) as Hrun.
  eapply resolve_fuel_mono; [|exact Hrun]. lia.
Qed.

Lemma resolve_depth_bound_witness :
  resolve_fuel cycle_catalog ∅ FORBIDDEN_PACKAGES 3 "A" ∅
  = Some (_resolve_dependencies cycle_catalog ∅ FORBIDDEN_PACKAGES "A",
          resolve_visited cycle_catalog ∅ FORBIDDEN_PACKAGES "A").
Proof. apply resolve_depth_bound. vm_compute. lia. Defined.

(** The plan is exactly the set of names reached from the root by one or
    more followed dependency edges; the root is in it exactly when it lies
    on a cycle. *)
Theorem plan_is_reachable_set packages installed forbidden root d :
  d ∈ _resolve_dependencies packages installed forbidden root
  ↔ tc (dep_edge packages installed forbidden) root d.
Proof.
  pose proof (resolve_run_eq packages installed forbidden root) as Hrun.
  pose proof (resolve_fuel_reach _ _ _ _ _ _ _ _ Hrun) as Hreach.
  destruct (resolve_post packages installed forbidden root)
    as (_ & Hroot & _ & _ & _ & Hall).
  split; [intros Hd; apply (Hreach d Hd)|].
  intros Htc.
  assert (∀ x y, tc (dep_edge packages installed forbidden) x y →
                 x ∈ resolve_visited packages installed forbidden root →
                 y ∈ _resolve_dependencies packages installed forbidden root)
    as Hstep.
  { induction 1 as [x y He|x y z He _ IH]; intros Hx.
    - apply (Hall x y Hx); [set_solver | exact He].
    - apply IH. apply (Hreach y). apply (Hall x y Hx); [set_solver | exact He]. }
  apply (Hstep root d Htc Hroot).
Qed.

(** The names marked visited by a resolution are the root and the names
    of the plan, and the plan lists each of its names once. *)
Theorem visited_is_root_and_plan packages installed forbidden root :
  (∀ x, x ∈ resolve_visited packages installed forbidden root
        ↔ x = root ∨ x ∈ _resolve_dependencies packages installed forbidden root)
  ∧ NoDup (_resolve_dependencies packages installed forbidden root).
Proof.
  pose proof (resolve_run_eq packages installed forbidden root) as Hrun.
  pose proof (resolve_fuel_reach _ _ _ _ _ _ _ _ Hrun) as Hreach.
  destruct (resolve_post packages installed forbidden root)
    as (_ & Hroot & Hnd & _ & Hvis & _).
  split; [|exact Hnd]. intros x. split.
  - intros Hx. destruct (Hvis x Hx) as [H|[H|H]]; [set_solver | auto | auto].
  - intros [->|Hx]; [exact Hroot | apply (Hreach x Hx)].
Qed.

(** *** Version constraints play no part *)

(** Two catalogs with the same names and, name by name, the same
    dependency names in the same order. *)
Definition same_slots (packages packages' : gmap string Package) : Prop :=
  ∀ n, match packages !! n, packages' !! n with
       | Some p, Some p' => (depends p).*1 = (depends p').*1
       | None, None => True
       | _, _ => False
       end.

Lemma resolve_loop_slots installed forbidden rec rec' deps :
  (∀ d V, rec d V = rec' d V) →
  ∀ deps' T V, deps.*1 = deps'.*1 →
  resolve_loop installed forbidden rec deps T V
  = resolve_loop installed forbidden rec' deps' T V.
Proof.
  intros Hrec. induction deps as [|[d c] rest IH]; intros [|[d' c'] rest'] T V Heq;
    try discriminate; [reflexivity|].
  simpl in Heq. injection Heq as <- Heq. simpl.
  repeat (destruct (bool_decide _); [apply IH, Heq|]).
  rewrite Hrec. destruct (rec' d V) as [[sub V1]|]; [apply IH, Heq | reflexivity].
Qed.

Lemma resolve_fuel_slots packages packages' installed forbidden :
  same_slots packages packages' →
  ∀ fuel n V, resolve_fuel packages installed forbidden fuel n V
              = resolve_fuel packages' installed forbidden fuel n V.
Proof.
  intros Hsame. induction fuel as [|fuel IH]; intros n V; [reflexivity|].
  simpl. destruct (decide (n ∈ V)); [reflexivity|].
  specialize (Hsame n).
  destruct (packages !! n) as [p|], (packages' !! n) as [p'|];
    try contradiction; [|reflexivity].
  apply resolve_loop_slots; [exact IH | exact Hsame].
Qed.

(** The resolver never reads a version constraint: catalogs that differ
    only in the constraints of their slots (or in versions, architectures
    and filenames) get the same plan. *)
Theorem constraints_are_ignored packages packages' installed forbidden root :
  same_slots packages packages' →
  _resolve_dependencies packages installed forbidden root
  = _resolve_dependencies packages' installed forbidden root.
Proof.
  intros Hsame.
  pose proof (resolve_run_eq packages installed forbidden root) as Hrun.
  unfold resolve_run in Hrun.
  rewrite (resolve_fuel_slots _ _ _ _ Hsame) in Hrun.
  symmetry. eapply resolve_fuel_run. exact Hrun.
Qed.

Definition strict_chain_catalog : gmap string Package :=
  catalog_of [mkPackage "A" "2.0" "amd64" "pool/a.deb" [("B", ">= 99")];
              mkPackage "B" "0.1" "amd64" "pool/b.deb" [("C", "<< 0.0.1")];
              mkPackage "C" "0.1" "amd64" "pool/c.deb" []].

Lemma constraints_are_ignored_witness :
  _resolve_dependencies chain_catalog ∅ FORBIDDEN_PACKAGES "A"
  = _resolve_dependencies strict_chain_catalog ∅ FORBIDDEN_PACKAGES "A".
Proof.
  apply constraints_are_ignored. intros n.
  unfold chain_catalog, strict_chain_catalog, catalog_of. simpl.
  rewrite !lookup_insert.
  repeat case_decide; try reflexivity; rewrite ?lookup_empty; exact I.
Defined.

End ResolverPlan.

(** ** The install command, observed through its calls *)

Module InstallTrace.

Import Resolver Installer.

(** The names handed to [_install_single], in order. *)
Definition installs (w : list event) : list string :=
  omap (λ e, match e with Installed n => Some n | _ => None end) w.

Section trace.
(** Any user and any installer: what is answered and whether an
    installation succeeds may depend on all that happened before. *)
Variable answer : prompt → list event → string.
Variable outcome : string → list event → bool.
Variable packages : gmap string Package.
Variable installed : gmap string InstalledPackage.

Definition ask (q : prompt) (w : list event) : string * list event :=
  (answer q w, w ++ [Asked q]).
Definition attempt (n : string) (w : list event) : bool * list event :=
  (outcome n w, w ++ [Installed n]).

Definition traced_install (name : string) (w : list event) : bool * list event :=
  install (list event) log_print ask attempt packages installed name w.

Definition traced_plan (name : string) (pkg : Package) (w : list event)
    : bool * list event :=
  install_plan (list event) log_print ask attempt packages installed name pkg w.

Definition plan (name : string) : list string :=
  _resolve_dependencies packages installed FORBIDDEN_PACKAGES name.

Lemma installs_app w w' : installs (w ++ w') = installs w ++ installs w'.
Proof. apply omap_app. Qed.

Lemma installs_print m w : installs (log_print m w) = installs w.
Proof. unfold log_print. rewrite installs_app. apply app_nil_r. Qed.

Lemma installs_ask q w : installs (snd (ask q w)) = installs w.
Proof. unfold ask. simpl. rewrite installs_app. apply app_nil_r. Qed.

Lemma installs_attempt n w : installs (snd (attempt n w)) = installs w ++ [n].
Proof. unfold attempt. simpl. apply installs_app. Qed.

Lemma installs_print_items deps :
  ∀ w, installs (print_items (list event) log_print deps w) = installs w.
Proof.
  induction deps as [|d rest IH]; intros w; simpl; [reflexivity|].
  rewrite IH. apply installs_print.
Qed.

Lemma installs_dependencies deps :
  ∀ w, installs (install_dependencies (list event) log_print attempt deps w)
       = installs w ++ deps.
Proof.
  induction deps as [|d rest IH]; intros w; simpl; [by rewrite app_nil_r|].
  destruct (outcome d (log_print (MsgInstallingDependency d) w));
    rewrite IH, ?installs_print, installs_app, installs_print; simpl;
    by rewrite <- app_assoc.
Qed.

(** The plan part of [install]: one question is asked; on any answer but
    yes nothing is installed, on yes the whole plan and then the root. *)
Lemma traced_plan_cases name pkg w :
  ∃ q wq, installs wq = installs w ∧
    if says_yes (answer q wq) then
      ∃ w', traced_plan name pkg w = attempt name w'
            ∧ installs w' = installs w ++ plan name
    else installs (snd (traced_plan name pkg w)) = installs w
         ∧ fst (traced_plan name pkg w) = false.
Proof.
  unfold traced_plan, install_plan. fold (plan name).
  destruct (plan name) as [|d rest] eqn:Hplan.
  - exists (AskInstall name (version pkg)),
           (log_print MsgSatisfied (log_print (MsgAnalyzing name) w)).
    split; [by rewrite !installs_print|].
    unfold ask. cbv beta iota zeta.
    destruct (says_yes _); simpl negb; cbv iota.
    + eexists. split; [reflexivity|].
      rewrite installs_print, installs_app, !installs_print. simpl.
      by rewrite !app_nil_r.
    + split; [|reflexivity]. simpl snd.
      rewrite installs_app, !installs_print. simpl. by rewrite app_nil_r.
  - exists AskContinue,
           (print_items (list event) log_print (d :: rest)
              (log_print (MsgNeed (length (d :: rest)))
                 (log_print (MsgAnalyzing name) w))).
    split; [by rewrite installs_print_items, !installs_print|].
    unfold ask. cbv beta iota zeta.
    destruct (says_yes _); simpl negb; cbv iota.
    + eexists. split; [reflexivity|].
      rewrite installs_print, installs_dependencies, installs_print,
        installs_app, installs_print_items, !installs_print.
      simpl. by rewrite app_nil_r.
    + split; [|reflexivity]. simpl snd.
      rewrite installs_print, installs_app, installs_print_items, !installs_print.
      simpl. by rewrite app_nil_r.
Qed.

Lemma traced_install_cases name w :
  installs (snd (traced_install name w)) = installs w
  ∨ ∃ w', traced_install name w = attempt name w'
          ∧ installs w' = installs w ++ plan name
          ∧ (name ∉ FORBIDDEN_PACKAGES) ∧ is_Some (packages !! name).
Proof.
  unfold traced_install, install.
  destruct (decide (name ∈ FORBIDDEN_PACKAGES)) as [Hf|Hf];
    [left; apply installs_print|].
  destruct (packages !! name) as [pkg|] eqn:Hp; [|left; apply installs_print].
  fold (traced_plan name pkg).
  assert (∀ w0, installs w0 = installs w →
            installs (snd (traced_plan name pkg w0)) = installs w
            ∨ ∃ w', traced_plan name pkg w0 = attempt name w'
                    ∧ installs w' = installs w ++ plan name
                    ∧ (name ∉ FORBIDDEN_PACKAGES) ∧ is_Some (Some pkg)) as Hplan.
  { intros w0 Hw0.
    destruct (traced_plan_cases name pkg w0) as (q & wq & _ & Hcase).
    destruct (says_yes (answer q wq)).
    - destruct Hcase as (w' & Heq & Hi). right. exists w'.
      rewrite <- Hw0. eauto.
    - left. rewrite <- Hw0. apply Hcase. }
  destruct (installed !! name) as [ip|]; [|apply Hplan; reflexivity].
  unfold ask. cbv beta iota zeta.
  destruct (says_yes _); simpl negb; cbv iota.
  - apply Hplan. rewrite installs_app, !installs_print. simpl.
    by rewrite app_nil_r.
  - left. simpl. rewrite installs_app, !installs_print. simpl.
    by rewrite app_nil_r.
Qed.
End trace.

(** Whatever the user answers and whatever succeeds, one run of [install]
    hands to the installer either nothing, or the whole plan in its order
    followed by the requested package, once: a dependency that fails to
    install stops neither the rest of the plan nor the main package. *)
Theorem install_attempts_plan_then_root answer outcome packages installed name w :
  let after := snd (traced_install answer outcome packages installed name w) in
  installs after = installs w
  ∨ installs after = installs w ++ plan packages installed name ++ [name].
Proof.
  intros after. subst after.
  destruct (traced_install_cases answer outcome packages installed name w)
    as [H|(w' & Heq & Hi & _)]; [left; exact H|].
  right. rewrite Heq, installs_attempt, Hi, <- app_assoc. reflexivity.
Qed.

(** No run of [install] hands a protected name to the installer, neither
    as the requested package nor as a dependency. *)
Theorem install_never_attempts_protected answer outcome packages installed name w n :
  n ∈ installs (snd (traced_install answer outcome packages installed name w)) →
  n ∈ installs w ∨ n ∉ FORBIDDEN_PACKAGES.
Proof.
  destruct (traced_install_cases answer outcome packages installed name w)
    as [->|(w' & -> & Hi & Hf & _)]; [auto|].
  rewrite installs_attempt, Hi. intros Hn.
  apply elem_of_app in Hn as [Hn|Hn].
  - apply elem_of_app in Hn as [Hn|Hn]; [left; exact Hn|]. right.
    destruct (resolve_post packages installed FORBIDDEN_PACKAGES name)
      as (_ & _ & _ & Hout & _).
    apply Hout in Hn. intros Hn'. unfold skipped in Hn.
    rewrite (bool_decide_eq_true_2 _ Hn') in Hn. discriminate.
  - apply list_elem_of_singleton in Hn as ->. right. exact Hf.
Qed.

Lemma install_never_attempts_protected_witness :
  "C" ∈ installs [] ∨ "C" ∉ FORBIDDEN_PACKAGES.
Proof.
  apply (install_never_attempts_protected (λ _ _, "y") (λ _ _, false)
           chain_catalog ∅ "A" [] "C").
  apply (bool_decide_unpack _). vm_compute. exact I.
Defined.

(** When the package has a record, is neither protected nor installed and
    every question is answered yes, the plan is attempted in order, then
    the package, and the value returned is the outcome of installing the
    package itself, whatever happened to the dependencies. *)
Theorem install_confirmed answer outcome packages installed name w :
  name ∉ FORBIDDEN_PACKAGES → is_Some (packages !! name) →
  installed !! name = None →
  (∀ q w', says_yes (answer q w') = true) →
  ∃ w', traced_install answer outcome packages installed name w
        = (outcome name w', w' ++ [Installed name])
        ∧ installs w' = installs w ++ plan packages installed name.
Proof.
  intros Hf [pkg Hp] Hi Hyes. unfold traced_install, install.
  rewrite decide_False by exact Hf. rewrite Hp, Hi.
  fold (traced_plan answer outcome packages installed name pkg).
  destruct (traced_plan_cases answer outcome packages installed name pkg w)
    as (q & wq & _ & Hcase).
  rewrite Hyes in Hcase. exact Hcase.
Qed.

Lemma install_confirmed_witness :
  ∃ w', traced_install (λ _ _, " Yes ") (λ n _, bool_decide (n = "A"))
          chain_catalog ∅ "A" []
        = (bool_decide ("A" = "A"), w' ++ [Installed "A"])
        ∧ installs w' = installs [] ++ plan chain_catalog ∅ "A".
Proof.
  apply (install_confirmed (λ _ _, " Yes ") (λ n _, bool_decide (n = "A"))
           chain_catalog ∅ "A" []).
  - vm_compute. intros H. discriminate H.
  - exists (pkg "A" ["B"]). vm_compute. reflexivity.
  - vm_compute. reflexivity.
  - intros q w'. vm_compute. reflexivity.
Defined.

(** When no question is answered yes, nothing is handed to the installer;
    the value returned is True exactly when the package has a record, is
    not protected and is already installed (the reinstall question was
    declined), and False otherwise. *)
Theorem install_declined answer outcome packages installed name w :
  (∀ q w', says_yes (answer q w') = false) →
  installs (snd (traced_install answer outcome packages installed name w))
  = installs w
  ∧ fst (traced_install answer outcome packages installed name w)
    = bool_decide ((name ∉ FORBIDDEN_PACKAGES) ∧ is_Some (packages !! name)
                   ∧ is_Some (installed !! name)).
Proof.
  intros Hno. unfold traced_install, install.
  destruct (decide (name ∈ FORBIDDEN_PACKAGES)) as [Hf|Hf].
  { split; [apply installs_print|]. simpl.
    symmetry. apply bool_decide_eq_false_2. tauto. }
  destruct (packages !! name) as [pkg|] eqn:Hp.
  2:{ split; [apply installs_print|]. simpl.
      symmetry. apply bool_decide_eq_false_2. intros (_ & [? ?] & _). discriminate. }
  fold (traced_plan answer outcome packages installed name pkg).
  destruct (installed !! name) as [ip|] eqn:Hi.
  - unfold ask. cbv beta iota zeta. rewrite Hno. simpl. split.
    + rewrite installs_app, !installs_print. simpl. by rewrite app_nil_r.
    + symmetry. apply bool_decide_eq_true_2. eauto.
  - destruct (traced_plan_cases answer outcome packages installed name pkg w)
      as (q & wq & _ & Hcase).
    rewrite Hno in Hcase. destruct Hcase as [H1 H2]. split; [exact H1|].
    transitivity false; [exact H2|]. symmetry. apply bool_decide_eq_false_2.
    intros (_ & _ & [? ?]). discriminate.
Qed.

Lemma install_declined_witness :
  installs (snd (traced_install (λ _ _, "no") (λ _ _, true) chain_catalog
                   (installed_of ["A"]) "A" []))
  = installs []
  ∧ fst (traced_install (λ _ _, "no") (λ _ _, true) chain_catalog
           (installed_of ["A"]) "A" [])
    = bool_decide (("A" ∉ FORBIDDEN_PACKAGES) ∧ is_Some (chain_catalog !! "A")
                   ∧ is_Some (installed_of ["A"] !! "A")).
Proof.
  apply (install_declined (λ _ _, "no") (λ _ _, true) chain_catalog
           (installed_of ["A"]) "A" []).
  intros q w'. vm_compute. reflexivity.
Defined.

End InstallTrace.

(** ** More on the parser: fields, stanzas and dependency lists *)

Module ParserFormat.

Import Parser.

(** [sep.join(pieces)]. *)
Fixpoint join (sep : string) (pieces : list string) : string :=
  match pieces with
  | [] => ""
  | [piece] => piece
  | piece :: rest => piece +:+ sep +:+ join sep rest
  end.

(** The usual text of one dependency: the name, then the constraint in
    parentheses when there is one. *)
Definition render_dep (dep : string * string) : string :=
  if is_empty (snd dep) then fst dep else fst dep +:+ " (" +:+ snd dep +:+ ")".

(** The usual text of a dependency list. *)
Definition render_depends (deps : list (string * string)) : string :=
  join ", " (render_dep <$> deps).

(** A character that may stand in a dependency name of such a text. *)
Definition plain_name_char (c : ascii) : bool :=
  name_char c && negb (Ascii.eqb c ",").

(** A character that may stand in a constraint of such a text. *)
Definition plain_constraint_char (c : ascii) : bool :=
  constraint_char c && negb (Ascii.eqb c ",").

(** *** Strings *)

Lemma app_cons (c : ascii) (a b : string) :
  String c a +:+ b = String c (a +:+ b).
Proof. reflexivity. Qed.

Lemma app_nil_end (s : string) : s +:+ "" = s.
Proof. induction s as [|c s IH]; [reflexivity|]. by rewrite app_cons, IH. Qed.

Lemma app_assoc_s (a b c : string) : (a +:+ b) +:+ c = a +:+ (b +:+ c).
Proof. induction a as [|x a IH]; [reflexivity|]. by rewrite !app_cons, IH. Qed.

Lemma string_forall_app f a b :
  string_forall f (a +:+ b) = string_forall f a && string_forall f b.
Proof.
  induction a as [|c a IH]; [reflexivity|].
  rewrite app_cons. simpl. rewrite IH. apply andb_assoc.
Qed.

Lemma string_forall_impl (f g : ascii → bool) s :
  (∀ c, f c = true → g c = true) →
  string_forall f s = true → string_forall g s = true.
Proof.
  intros Hfg. induction s as [|c s IH]; [reflexivity|]. simpl.
  intros H. apply andb_true_iff in H as [Hc Hs].
  by rewrite (Hfg c Hc), (IH Hs).
Qed.

Lemma string_forall_and (f g : ascii → bool) s :
  string_forall f s = true → string_forall g s = true →
  string_forall (λ c, f c && g c) s = true.
Proof.
  induction s as [|c s IH]; [reflexivity|]. simpl. intros Hf Hg.
  apply andb_true_iff in Hf as [H1 H2]. apply andb_true_iff in Hg as [H3 H4].
  by rewrite H1, H3, (IH H2 H4).
Qed.

Lemma contains_forall c s :
  contains c s = false ↔ string_forall (λ x, negb (Ascii.eqb x c)) s = true.
Proof.
  induction s as [|x s IH]; simpl; [tauto|].
  rewrite orb_false_iff, andb_true_iff, negb_true_iff, IH. tauto.
Qed.

(** *** Splitting on one character *)

Lemma split_char_cons c x s :
  split (String c "") (String x s)
  = if Ascii.eqb x c then "" :: split (String c "") s
    else cons_head x (split (String c "") s).
Proof.
  unfold split. rewrite split_go_cons. unfold String.prefix.
  destruct (Ascii.eqb_spec x c) as [->|Hne].
  - destruct (ascii_dec c c) as [_|Hcc]; [|contradiction].
    destruct s; reflexivity.
  - destruct (ascii_dec c x) as [Heq|_]; [congruence | reflexivity].
Qed.

Lemma split_char_none c s :
  contains c s = false → split (String c "") s = [s].
Proof.
  induction s as [|x s IH]; [reflexivity|]. simpl. intros H.
  apply orb_false_iff in H as [Hx Hs].
  rewrite split_char_cons, Hx, (IH Hs). reflexivity.
Qed.

Lemma split_char_app c a b :
  contains c a = false →
  split (String c "") (a +:+ String c b) = a :: split (String c "") b.
Proof.
  induction a as [|x a IH]; intros H.
  - change ("" +:+ String c b) with (String c b).
    rewrite split_char_cons, Ascii.eqb_refl. reflexivity.
  - simpl in H. apply orb_false_iff in H as [Hx Ha].
    rewrite app_cons, split_char_cons, Hx, (IH Ha). reflexivity.
Qed.

Lemma split_char_pieces c s :
  Forall (λ p, contains c p = false) (split (String c "") s).
Proof.
  induction s as [|x s IH]; [repeat constructor|].
  rewrite split_char_cons. destruct (Ascii.eqb x c) eqn:Hx.
  - constructor; [reflexivity | exact IH].
  - destruct IH as [|h t Hh Ht]; simpl.
    + repeat constructor. simpl. by rewrite Hx.
    + constructor; [|exact Ht]. simpl. by rewrite Hx, Hh.
Qed.

Lemma split_once_first c k v :
  contains c k = false → split_once c (k +:+ String c v) = [k; v].
Proof.
  induction k as [|x k IH]; intros H.
  - change ("" +:+ String c v) with (String c v). simpl.
    by rewrite Ascii.eqb_refl.
  - simpl in H. apply orb_false_iff in H as [Hx Hk].
    rewrite app_cons. simpl. rewrite Hx, (IH Hk). reflexivity.
Qed.

Lemma contains_app_sep c k v : contains c (k +:+ String c v) = true.
Proof.
  induction k as [|x k IH].
  - change ("" +:+ String c v) with (String c v). simpl.
    by rewrite Ascii.eqb_refl.
  - rewrite app_cons. simpl. rewrite IH. apply orb_true_r.
Qed.

(** *** Stripping *)

Lemma lstrip_forall f s :
  string_forall f s = true → string_forall f (lstrip s) = true.
Proof.
  induction s as [|c s IH]; [reflexivity|]. simpl.
  destruct (is_space c); [|exact id].
  intros H. apply andb_true_iff in H as [_ Hs]. apply IH, Hs.
Qed.

Lemma rstrip_forall f s :
  string_forall f s = true → string_forall f (rstrip s) = true.
Proof.
  induction s as [|c s IH]; [reflexivity|]. simpl.
  intros H. apply andb_true_iff in H as [Hc Hs].
  destruct (is_space c && is_empty (rstrip s)); [reflexivity|].
  simpl. by rewrite Hc, (IH Hs).
Qed.

Lemma strip_forall f s :
  string_forall f s = true → string_forall f (strip s) = true.
Proof. intros H. apply rstrip_forall, lstrip_forall, H. Qed.

(** A string that ends with a character that is no whitespace. *)
Lemma rstrip_solid a c :
  is_space c = false → rstrip (a +:+ String c "") = a +:+ String c "".
Proof.
  intros Hc. induction a as [|x a IH].
  - change ("" +:+ String c "") with (String c ""). simpl. by rewrite Hc.
  - rewrite app_cons. simpl. rewrite IH.
    destruct (a +:+ String c "") eqn:E.
    + destruct a; discriminate.
    + simpl. by rewrite andb_false_r.
Qed.

Lemma rstrip_blank_tail a ws :
  string_forall is_space ws = true → rstrip (a +:+ ws) = rstrip a.
Proof.
  intros Hws.
  assert (rstrip ws = "") as Hr.
  { induction ws as [|x ws IH]; [reflexivity|]. simpl in *.
    apply andb_true_iff in Hws as [Hx Hws]. by rewrite (IH Hws), Hx. }
  induction a as [|x a IH]; [exact Hr|].
  rewrite app_cons. simpl. by rewrite IH.
Qed.

Lemma strip_solid a c :
  lstrip (a +:+ String c "") = a +:+ String c "" → is_space c = false →
  strip (a +:+ String c "") = a +:+ String c ""
  ∧ strip (" " +:+ a +:+ String c "") = a +:+ String c "".
Proof.
  intros Hl Hc. unfold strip.
  change (lstrip (" " +:+ a +:+ String c "")) with (lstrip (a +:+ String c "")).
  rewrite Hl, (rstrip_solid a c Hc). auto.
Qed.

Lemma last_char f s :
  s ≠ "" → string_forall f s = true →
  ∃ a c, s = a +:+ String c "" ∧ f c = true.
Proof.
  induction s as [|x s IH]; [contradiction|]. intros _ H.
  simpl in H. apply andb_true_iff in H as [Hx Hs]. destruct s as [|y s].
  - exists "", x. auto.
  - destruct IH as (a & c & Heq & Hc); [discriminate | exact Hs|].
    exists (String x a), c. rewrite app_cons, <- Heq. auto.
Qed.

(** *** Fields and stanzas *)

(** Only the first colon of a line separates the key from the value: the
    value keeps every later colon, and both are stripped. *)
Theorem field_line_first_colon k v rest d :
  contains ":" k = false →
  parse_lines ((k +:+ ":" +:+ v) :: rest) d
  = parse_lines rest (<[strip k := strip v]> d).
Proof.
  intros Hk. change (":" +:+ v) with (String ":" v). simpl.
  rewrite contains_app_sep, (split_once_first _ _ _ Hk).
  destruct k; reflexivity.
Qed.

Lemma field_line_first_colon_witness :
  parse_lines ["Homepage" +:+ ":" +:+ " https://nmap.org:443/ "] ∅
  = parse_lines [] (<[strip "Homepage" := strip " https://nmap.org:443/ "]> ∅).
Proof. apply field_line_first_colon. reflexivity. Defined.

(** When several stanzas of a text carry the same package name, the
    catalog holds the record of the last of them. *)
Theorem last_stanza_wins content packages l1 e l2 d n :
  _parse_packages content = Ok packages →
  split (nl +:+ nl) content = l1 ++ e :: l2 →
  stanza_fields e = Ok d → d !! "Package" = Some n →
  (∀ e' d', e' ∈ l2 → stanza_fields e' = Ok d' → d' !! "Package" ≠ Some n) →
  packages !! n = Some (record_of n d).
Proof.
  intros Hrun Hsplit Hd Hn Hl2.
  change (parse_entries (split (nl +:+ nl) content) ∅ = Ok packages) in Hrun.
  rewrite Hsplit, parse_entries_app in Hrun.
  destruct (parse_entries l1 ∅) as [mid|]; [|discriminate].
  simpl in Hrun. rewrite (parse_entry_package _ _ _ _ Hd Hn) in Hrun.
  rewrite (parse_entries_keep _ _ Hl2 _ _ Hrun). apply lookup_insert_eq.
Qed.

Definition twice : string :=
  "Package: vim" +:+ nl +:+ "Version: 1" +:+ nl +:+ nl
  +:+ "Package: vim" +:+ nl +:+ "Version: 2" +:+ nl +:+ nl
  +:+ "Package: zsh" +:+ nl +:+ "Version: 5".

Definition twice_catalog : gmap string Package :=
  <["vim" := mkPackage "vim" "2" "amd64" "" []]>
    (<["zsh" := mkPackage "zsh" "5" "amd64" "" []]> ∅).

Lemma last_stanza_wins_witness :
  twice_catalog !! "vim"
  = Some (record_of "vim" (<["Package" := "vim"]> (<["Version" := "2"]> ∅))).
Proof.
  apply (last_stanza_wins twice twice_catalog
           ["Package: vim" +:+ nl +:+ "Version: 1"]
           ("Package: vim" +:+ nl +:+ "Version: 2")
           ["Package: zsh" +:+ nl +:+ "Version: 5"]).
  - vm_compute. reflexivity.
  - vm_compute. reflexivity.
  - vm_compute. reflexivity.
  - vm_compute. reflexivity.
  - intros e' d' He' Hd'. apply list_elem_of_singleton in He' as ->.
    vm_compute in Hd'. injection Hd' as <-. vm_compute. discriminate.
Defined.

(** A text of whitespace only yields the empty catalog. *)
Theorem blank_text_empty_catalog content :
  string_forall is_space content = true → _parse_packages content = Ok ∅.
Proof.
  intros Hblank. unfold _parse_packages.
  pose proof (split_go_forall is_space (String "010" (String "010" "")) content
                Hblank 0) as Hall.
  fold (split (String "010" (String "010" "")) content) in Hall.
  induction Hall as [|e l He _ IH]; [reflexivity|]. simpl.
  rewrite (parse_entry_no_package e ∅ ∅); [exact IH| |apply lookup_empty].
  apply parse_lines_blank, split_go_forall, He.
Qed.

Lemma blank_text_empty_catalog_witness :
  _parse_packages (" " +:+ nl +:+ nl +:+ nl +:+ "  ") = Ok ∅.
Proof. apply blank_text_empty_catalog. reflexivity. Defined.

(** *** Dependency lists *)

Lemma match_dep_Some slot dn dc :
  match_dep slot = Some (dn, dc) →
  dn ≠ "" ∧ string_forall name_char dn = true
  ∧ ∃ rest, slot = dn +:+ rest
            ∧ (dc = "" ∨ ∃ ws tail, rest = ws +:+ "(" +:+ dc +:+ ")" +:+ tail
                                    ∧ string_forall constraint_char dc = true).
Proof.
  unfold match_dep. destruct (span name_char slot) as [a rest] eqn:E.
  apply span_spec in E as (-> & Ha & _).
  destruct a as [|a0 a]; [discriminate|]. intros [= <- <-].
  split; [discriminate|]. split; [exact Ha|]. exists rest. split; [reflexivity|].
  destruct (match_constraint rest) as [cs|] eqn:Hc; [|left; reflexivity].
  apply match_constraint_iff in Hc as (ws & tail & _ & _ & Hcs & ->).
  right. exists ws, tail. auto.
Qed.

(** In every record of a parsed catalog, a dependency name is not empty
    and holds no whitespace, no opening parenthesis and no comma; a
    constraint holds no closing parenthesis and no comma. *)
Theorem parsed_dependencies_clean content packages n p dn dc :
  _parse_packages content = Ok packages → packages !! n = Some p →
  (dn, dc) ∈ depends p →
  dn ≠ "" ∧ string_forall plain_name_char dn = true
  ∧ string_forall plain_constraint_char dc = true.
Proof.
  intros Hrun Hp Hdep.
  destruct (parse_entries_origin _ _ _ _ _ Hrun Hp)
    as [Habs|(entry & d & _ & _ & _ & ->)].
  { rewrite lookup_empty in Habs. discriminate. }
  simpl in Hdep. destruct (d !! "Depends") as [value|];
    [|by apply elem_of_nil in Hdep].
  unfold parse_depends in Hdep.
  apply list_elem_of_omap in Hdep as (slot & Hslot & Hm).
  pose proof (split_char_pieces "," value) as Hpieces.
  rewrite Forall_forall in Hpieces. apply Hpieces in Hslot.
  apply contains_forall, (strip_forall _ slot) in Hslot.
  destruct (match_dep_Some _ _ _ Hm) as (Hne & Hname & rest & Heq & Hc).
  rewrite Heq, string_forall_app in Hslot.
  apply andb_true_iff in Hslot as [Hdn Hrest].
  split; [exact Hne|]. split.
  - apply (string_forall_and name_char _ dn Hname Hdn).
  - destruct Hc as [->|(ws & tail & -> & Hcs)]; [reflexivity|].
    rewrite !string_forall_app in Hrest.
    apply andb_true_iff in Hrest as [_ Hrest].
    apply andb_true_iff in Hrest as [_ Hrest].
    apply andb_true_iff in Hrest as [Hdc _].
    apply (string_forall_and constraint_char _ dc Hcs Hdc).
Qed.

Lemma parsed_dependencies_clean_witness :
  "libssl3t64" ≠ "" ∧ string_forall plain_name_char "libssl3t64" = true
  ∧ string_forall plain_constraint_char ">=3" = true.
Proof.
  apply (parsed_dependencies_clean sample
           (<["nmap" := mkPackage "nmap" "7.94" "amd64" ""
                          [("libc6", ">= 2.38"); ("liblua5.4-0", "");
                           ("libssl3t64", ">=3"); ("a|b", "")]]>
              (<["zed" := mkPackage "zed" "" "amd64" "" []]> ∅))
           "nmap"
           (mkPackage "nmap" "7.94" "amd64" ""
              [("libc6", ">= 2.38"); ("liblua5.4-0", "");
               ("libssl3t64", ">=3"); ("a|b", "")])).
  - vm_compute. reflexivity.
  - vm_compute. reflexivity.
  - simpl. do 2 right. left.
Defined.

(** *** Reading back a rendered dependency list *)

(** A dependency whose text the pattern reads back. *)
Definition plain_dep (dep : string * string) : Prop :=
  fst dep ≠ "" ∧ string_forall plain_name_char (fst dep) = true
  ∧ string_forall plain_constraint_char (snd dep) = true.

Lemma plain_name_char_name c : plain_name_char c = true → name_char c = true.
Proof. unfold plain_name_char. intros H. by apply andb_true_iff in H as [H _]. Qed.

Lemma plain_name_char_comma c :
  plain_name_char c = true → negb (Ascii.eqb c ",") = true.
Proof. unfold plain_name_char. intros H. by apply andb_true_iff in H as [_ H]. Qed.

Lemma plain_constraint_char_constraint c :
  plain_constraint_char c = true → constraint_char c = true.
Proof.
  unfold plain_constraint_char. intros H. by apply andb_true_iff in H as [H _].
Qed.

Lemma plain_constraint_char_comma c :
  plain_constraint_char c = true → negb (Ascii.eqb c ",") = true.
Proof.
  unfold plain_constraint_char. intros H. by apply andb_true_iff in H as [_ H].
Qed.

Lemma name_char_solid c : name_char c = true → is_space c = false.
Proof.
  unfold name_char. intros H. apply andb_true_iff in H as [H _].
  by apply negb_true_iff in H.
Qed.

(** The text of a plain dependency holds no comma. *)
Lemma render_dep_no_comma dep :
  plain_dep dep → contains "," (render_dep dep) = false.
Proof.
  intros (_ & Hn & Hc). apply contains_forall. unfold render_dep.
  pose proof (string_forall_impl _ _ _ plain_name_char_comma Hn) as Hn'.
  pose proof (string_forall_impl _ _ _ plain_constraint_char_comma Hc) as Hc'.
  destruct (is_empty (snd dep)); [exact Hn'|].
  rewrite !string_forall_app, Hn', Hc'. reflexivity.
Qed.

(** It starts and ends with a character that is no whitespace. *)
Lemma render_dep_solid dep :
  plain_dep dep →
  ∃ a c, render_dep dep = a +:+ String c "" ∧ is_space c = false
         ∧ lstrip (render_dep dep) = render_dep dep.
Proof.
  intros (Hne & Hn & _).
  pose proof (string_forall_impl _ _ _ plain_name_char_name Hn) as Hname.
  assert (∀ tail, lstrip (fst dep +:+ tail) = fst dep +:+ tail) as Hl.
  { intros tail. destruct (fst dep) as [|c0 n]; [contradiction|].
    simpl in Hname. apply andb_true_iff in Hname as [Hc0 _].
    rewrite app_cons. simpl. by rewrite (name_char_solid _ Hc0). }
  unfold render_dep. destruct (is_empty (snd dep)).
  - destruct (last_char name_char (fst dep) Hne Hname) as (a & c & Heq & Hc).
    exists a, c. split; [exact Heq|]. split; [apply name_char_solid, Hc|].
    rewrite <- (app_nil_end (fst dep)). apply Hl.
  - exists (fst dep +:+ " (" +:+ snd dep), ")"%char.
    split; [by rewrite !app_assoc_s|]. split; [reflexivity | apply Hl].
Qed.

(** The pattern reads the text of a plain dependency back. *)
Lemma match_render_dep dep :
  plain_dep dep → match_dep (render_dep dep) = Some dep.
Proof.
  destruct dep as [n c]. intros (Hne & Hn & Hc). simpl in *.
  pose proof (string_forall_impl _ _ _ plain_name_char_name Hn) as Hname.
  pose proof (string_forall_impl _ _ _ plain_constraint_char_constraint Hc) as Hcs.
  unfold render_dep, match_dep. simpl fst. simpl snd.
  destruct c as [|c0 c]; simpl is_empty; cbv iota.
  - rewrite <- (app_nil_end n) at 1.
    rewrite (span_app name_char n "" Hname eq_refl).
    destruct n; [contradiction | reflexivity].
  - rewrite (span_app name_char n (" (" +:+ String c0 c +:+ ")") Hname eq_refl).
    assert (match_constraint (" (" +:+ String c0 c +:+ ")") = Some (String c0 c))
      as ->.
    { apply match_constraint_iff. exists " ", "".
      split; [reflexivity|]. split; [discriminate|]. split; [exact Hcs|].
      reflexivity. }
    destruct n; [contradiction | reflexivity].
Qed.

(** Splitting a joined list of comma-free pieces on the comma. *)
Lemma split_join_pieces rest : ∀ pre q,
  contains "," pre = false →
  Forall (λ p, contains "," p = false) (q :: rest) →
  split "," (pre +:+ join ", " (q :: rest))
  = (pre +:+ q) :: ((λ p, " " +:+ p) <$> rest).
Proof.
  induction rest as [|r rest IH]; intros pre q Hpre Hall.
  - apply Forall_cons in Hall as [Hq _]. simpl join.
    apply split_char_none, contains_forall.
    rewrite string_forall_app. apply andb_true_iff.
    split; apply contains_forall; assumption.
  - apply Forall_cons in Hall as [Hq Hrest].
    change (join ", " (q :: r :: rest))
      with (q +:+ String "," (" " +:+ join ", " (r :: rest))).
    rewrite <- app_assoc_s, split_char_app.
    + rewrite (IH " " r eq_refl Hrest). reflexivity.
    + apply contains_forall. rewrite string_forall_app. apply andb_true_iff.
      split; apply contains_forall; assumption.
Qed.

(** A dependency list written the usual way, names separated by a comma
    and a space with the constraint in parentheses after a space, is read
    back as it was, when no name is empty, no name holds whitespace, a
    parenthesis opening or a comma, and no constraint holds a closing
    parenthesis or a comma. *)
Theorem depends_round_trip deps :
  Forall plain_dep deps → parse_depends (render_depends deps) = deps.
Proof.
  intros Hall. unfold parse_depends, render_depends.
  destruct deps as [|dep deps]; [reflexivity|].
  apply Forall_cons in Hall as [Hdep Hdeps].
  change (join ", " (render_dep <$> dep :: deps))
    with ("" +:+ join ", " (render_dep dep :: (render_dep <$> deps))).
  rewrite split_join_pieces; [|reflexivity|].
  - change ("" +:+ render_dep dep) with (render_dep dep).
    change (omap (λ d, match_dep (strip d))
              (render_dep dep :: ((λ p, " " +:+ p) <$> (render_dep <$> deps))))
      with (match match_dep (strip (render_dep dep)) with
            | Some y => y :: omap (λ d, match_dep (strip d))
                               ((λ p, " " +:+ p) <$> (render_dep <$> deps))
            | None => omap (λ d, match_dep (strip d))
                        ((λ p, " " +:+ p) <$> (render_dep <$> deps))
            end).
    destruct (render_dep_solid dep Hdep) as (a & c & Heq & Hc & Hl).
    rewrite Heq in Hl |- *.
    rewrite (proj1 (strip_solid a c Hl Hc)), <- Heq, (match_render_dep dep Hdep).
    f_equal. clear -Hdeps.
    induction Hdeps as [|d ds Hd _ IH]; [reflexivity|].
    change (omap (λ d, match_dep (strip d))
              ((λ p, " " +:+ p) <$> (render_dep <$> d :: ds)))
      with (match match_dep (strip (" " +:+ render_dep d)) with
            | Some y => y :: omap (λ d, match_dep (strip d))
                               ((λ p, " " +:+ p) <$> (render_dep <$> ds))
            | None => omap (λ d, match_dep (strip d))
                        ((λ p, " " +:+ p) <$> (render_dep <$> ds))
            end).
    destruct (render_dep_solid d Hd) as (a & c & Heq & Hc & Hl).
    rewrite Heq in Hl |- *.
    rewrite (proj2 (strip_solid a c Hl Hc)), <- Heq, (match_render_dep d Hd), IH.
    reflexivity.
  - constructor; [apply render_dep_no_comma, Hdep|].
    clear -Hdeps. induction Hdeps as [|d ds Hd _ IH]; constructor;
      [apply render_dep_no_comma, Hd | exact IH].
Qed.

Lemma depends_round_trip_witness :
  parse_depends
    (render_depends [("libc6", ">= 2.38"); ("zlib1g", ""); ("a|b", "<< 3:1.0~")])
  = [("libc6", ">= 2.38"); ("zlib1g", ""); ("a|b", "<< 3:1.0~")].
Proof.
  apply depends_round_trip.
  repeat (apply Forall_cons; split;
          [split; [discriminate | split; reflexivity]|]).
  apply Forall_nil_2.
Defined.

End ParserFormat.

(** ** The package database: refresh and cache *)

Module Database.

Import Parser Cache.

(** [REPOS], with [UBUNTU_VERSION] filled in. *)
Definition REPOS : list string :=
  [ "http://archive.ubuntu.com/ubuntu/dists/noble/main/binary-amd64/Packages.gz";
    "http://archive.ubuntu.com/ubuntu/dists/noble/universe/binary-amd64/Packages.gz" ].

Section database.
(** [Path.home()], [pickle.dumps] with the sizes of the pieces in which
    its bytes reach the file, [pickle.loads] ([None] when loading raises),
    and the download of one repository index: the text after decompression
    and decoding, [None] when any step of it raises. *)
Variable home : string.
Variable dumps : gmap string Package → string.
Variable sizes : list nat.
Variable loads : string → option (gmap string Package).
Variable download : string → option string.

(** [PackageDatabase.load_from_cache]: the value returned and
    [self.packages] afterwards; the report that follows the assignment (the
    age of the file and the count of packages, printed) is taken to
    succeed. *)
Definition load_from_cache (fs : FS) (packages : gmap string Package)
    : bool * gmap string Package :=
  match files fs !! PACKAGES_CACHE home with
  | None => (false, packages)
  | Some data =>
      match loads data with
      | Some loaded => (true, loaded)
      | None => (false, packages)
      end
  end.

(** [PackageDatabase.needs_update]; [older] is the outcome of the
    comparison of the age of the cache file with 24 hours. *)
Definition needs_update (fs : FS) (older : bool) : bool :=
  match files fs !! PACKAGES_CACHE home with
  | None => true
  | Some _ => older
  end.

(** The [for repo_url in REPOS] loop of [update], filling [all_packages]. *)
Fixpoint fetch_all (repos : list string) (all_packages : gmap string Package)
    : gmap string Package :=
  match repos with
  | [] => all_packages
  | repo_url :: rest =>
      match download repo_url with
      | None => fetch_all rest all_packages
      | Some decompressed =>
          match _parse_packages decompressed with
          | Raise _ => fetch_all rest all_packages
          | Ok packages => fetch_all rest (packages ∪ all_packages)
          end
      end
  end.

(** [PackageDatabase.update]: [self.packages] and the file system
    afterwards. *)
Definition update (force older : bool) (packages : gmap string Package) (fs : FS)
    : gmap string Package * FS :=
  if negb force && negb (needs_update fs older) then
    (snd (load_from_cache fs packages), fs)
  else
    let all_packages := fetch_all REPOS ∅ in
    (all_packages, run (_save_to_cache home dumps sizes all_packages) fs).

(** *** Facts *)

Lemma fetch_all_app l1 l2 all :
  fetch_all (l1 ++ l2) all = fetch_all l2 (fetch_all l1 all).
Proof.
  revert all. induction l1 as [|url l1 IH]; intros all; [reflexivity|].
  simpl. destruct (download url) as [text|]; [|apply IH].
  destruct (_parse_packages text); apply IH.
Qed.

Lemma fetch_all_keep l n :
  (∀ url text packages, url ∈ l → download url = Some text →
     _parse_packages text = Ok packages → packages !! n = None) →
  ∀ all, fetch_all l all !! n = all !! n.
Proof.
  induction l as [|url l IH]; intros Hl all; [reflexivity|].
  assert (∀ url' text packages, url' ∈ l → download url' = Some text →
            _parse_packages text = Ok packages → packages !! n = None) as Hl'
    by (intros url' text packages Hin; apply Hl; right; exact Hin).
  simpl. destruct (download url) as [text|] eqn:Hd; [|apply IH, Hl'].
  destruct (_parse_packages text) as [packages|] eqn:Hp; [|apply IH, Hl'].
  rewrite (IH Hl'). apply lookup_union_r. eapply Hl; [left | exact Hd | exact Hp].
Qed.
End database.

(** A save that runs to its end followed by a load gives the saved catalog
    back, whatever the catalog in memory was, provided unpickling inverts
    pickling on it. *)
Theorem save_then_load home dumps sizes loads saved current fs :
  loads (dumps saved) = Some saved →
  load_from_cache home loads (run (_save_to_cache home dumps sizes saved) fs)
    current
  = (true, saved).
Proof.
  intros Hrt. unfold load_from_cache.
  rewrite save_completes, Hrt. reflexivity.
Qed.

Lemma save_then_load_witness :
  load_from_cache "/root" (λ data, if decide (data = "P") then Some ∅ else None)
    (run (_save_to_cache "/root" (λ _, "P") [] ∅) (mkFS ∅ ∅))
    (Resolver.chain_catalog)
  = (true, ∅).
Proof. apply save_then_load. reflexivity. Defined.

(** A save stopped between the opening of the cache file and the dump
    destroys the previous cache: the next load fails and leaves the catalog
    in memory as it was (unpickling an empty file raises). *)
Theorem interrupted_save_then_load home dumps sizes loads saved current fs :
  loads "" = None →
  load_from_cache home loads (interrupted_save home dumps sizes 2 saved fs)
    current
  = (false, current).
Proof.
  intros Hempty. unfold load_from_cache.
  destruct (after_open home dumps sizes saved fs 0) as [-> _].
  simpl. rewrite Hempty. reflexivity.
Qed.

Lemma interrupted_save_then_load_witness :
  load_from_cache "/root" (λ data, if decide (data = "P") then Some ∅ else None)
    (interrupted_save "/root" (λ _, "P") [] 2 ∅
       (mkFS ∅ {[ PACKAGES_CACHE "/root" := "P" ]}))
    Resolver.chain_catalog
  = (false, Resolver.chain_catalog).
Proof. apply interrupted_save_then_load. reflexivity. Defined.

(** Merging the sources of a refresh: a record found in a source that was
    downloaded is the one kept for its name unless a later source that was
    downloaded has a record of that name; the later source wins. *)
Theorem later_source_wins download l1 url l2 text packages n p all :
  download url = Some text → _parse_packages text = Ok packages →
  packages !! n = Some p →
  (∀ url' text' packages', url' ∈ l2 → download url' = Some text' →
     _parse_packages text' = Ok packages' → packages' !! n = None) →
  fetch_all download (l1 ++ url :: l2) all !! n = Some p.
Proof.
  intros Hd Hp Hn Hl2. rewrite fetch_all_app. simpl. rewrite Hd, Hp.
  rewrite (fetch_all_keep download l2 n Hl2).
  apply lookup_union_Some_l, Hn.
Qed.

(** A source whose download fails is skipped: the refresh gives what the
    other sources give. *)
Theorem failed_source_skipped download l1 url l2 all :
  download url = None →
  fetch_all download (l1 ++ url :: l2) all = fetch_all download (l1 ++ l2) all.
Proof. intros Hd. rewrite !fetch_all_app. simpl. by rewrite Hd. Qed.

(** When every download fails, a refresh that is forced, or that finds the
    cache missing or old, replaces the catalog in memory by the empty one and
    overwrites the cache file with the empty catalog. *)
Theorem failed_refresh_wipes home dumps sizes loads download force older
    packages fs :
  (∀ url, url ∈ REPOS → download url = None) →
  force = true ∨ needs_update home fs older = true →
  let '(packages', fs') :=
    update home dumps sizes loads download force older packages fs in
  packages' = ∅ ∧ files fs' !! PACKAGES_CACHE home = Some (dumps ∅).
Proof.
  intros Hfail Hgo. unfold update.
  assert (negb force && negb (needs_update home fs older) = false) as ->.
  { destruct Hgo as [-> | ->]; [reflexivity | apply andb_false_r]. }
  assert (fetch_all download REPOS ∅ = ∅) as ->.
  { unfold REPOS. simpl. rewrite !Hfail; [reflexivity | | ];
      unfold REPOS; [right; left | left]. }
  split; [reflexivity|]. apply save_completes.
Qed.

(** Three sources: two with a record of vim, one without. *)
Definition sample_download (url : string) : option string :=
  if decide (url = "main") then Some ("Package: vim" +:+ nl +:+ "Version: 1")
  else if decide (url = "universe") then
    Some ("Package: vim" +:+ nl +:+ "Version: 2")
  else if decide (url = "extra") then Some ("Package: zsh" +:+ nl +:+ "Version: 5")
  else None.

Lemma later_source_wins_witness :
  fetch_all sample_download (["main"] ++ "universe" :: ["extra"]) ∅ !! "vim"
  = Some (mkPackage "vim" "2" "amd64" "" []).
Proof.
  apply (later_source_wins sample_download ["main"] "universe" ["extra"]
           ("Package: vim" +:+ nl +:+ "Version: 2")
           (<["vim" := mkPackage "vim" "2" "amd64" "" []]> ∅)).
  - reflexivity.
  - vm_compute. reflexivity.
  - vm_compute. reflexivity.
  - intros url' text' packages' Hin Hd Hp.
    apply list_elem_of_singleton in Hin as ->.
    vm_compute in Hd. injection Hd as <-.
    vm_compute in Hp. injection Hp as <-. vm_compute. reflexivity.
Defined.

Lemma failed_source_skipped_witness :
  fetch_all sample_download (["main"] ++ "missing" :: ["extra"]) ∅
  = fetch_all sample_download (["main"] ++ ["extra"]) ∅.
Proof. apply failed_source_skipped. reflexivity. Defined.

Lemma failed_refresh_wipes_witness :
  let '(packages', fs') :=
    update "/root" (λ _, "P") [1] (λ _, None) (λ _, None) true false
      Resolver.chain_catalog (mkFS ∅ {[ PACKAGES_CACHE "/root" := "old" ]}) in
  packages' = ∅ ∧ files fs' !! PACKAGES_CACHE "/root" = Some "P".
Proof.
  apply (failed_refresh_wipes "/root" (λ _, "P") [1] (λ _, None) (λ _, None) true
           false Resolver.chain_catalog
           (mkFS ∅ {[ PACKAGES_CACHE "/root" := "old" ]})).
  - reflexivity.
  - left. reflexivity.
Defined.

End Database.

(** ** The installed packages, read from dpkg-query *)

Module SystemPackages.

Import Parser ParserFormat.

(** The body of the [for line in ...] loop of [get_installed_packages],
    over the lines left to read. *)
Fixpoint read_lines (lines : list string) (installed : gmap string InstalledPackage)
    : gmap string InstalledPackage :=
  match lines with
  | [] => installed
  | line :: rest =>
      if contains "|" line then
        match split "|" line with
        | name :: version :: arch :: _ =>
            read_lines rest (<[name := mkInstalled name version arch]> installed)
        | _ => read_lines rest installed
        end
      else read_lines rest installed
  end.

(** What [get_installed_packages] makes of the output of dpkg-query. *)
Definition read_installed (stdout : string) : gmap string InstalledPackage :=
  read_lines (split nl (strip stdout)) ∅.

(** [SystemPackageManager.get_installed_packages]; [None] stands for a
    run of dpkg-query that raises, which the bare [except] swallows. *)
Definition get_installed_packages (stdout : option string)
    : gmap string InstalledPackage :=
  match stdout with
  | Some out => read_installed out
  | None => ∅
  end.

(** One line of the format [${Package}|${Version}|${Architecture}\n]. *)
Definition render_line (r : InstalledPackage) : string :=
  inst_name r +:+ "|" +:+ inst_version r +:+ "|" +:+ inst_architecture r.

(** The output of dpkg-query for the records [rs]. *)
Fixpoint render_installed (rs : list InstalledPackage) : string :=
  match rs with
  | [] => ""
  | r :: rest => render_line r +:+ nl +:+ render_installed rest
  end.

(** A character of a field: no whitespace and no bar. *)
Definition field_char (c : ascii) : bool :=
  negb (is_space c) && negb (Ascii.eqb c "|").

Definition plain_record (r : InstalledPackage) : Prop :=
  string_forall field_char (inst_name r) = true
  ∧ string_forall field_char (inst_version r) = true
  ∧ string_forall field_char (inst_architecture r) = true.

(** *** Where a record comes from *)

Lemma read_lines_origin lines :
  ∀ installed n r, read_lines lines installed !! n = Some r →
  installed !! n = Some r
  ∨ (inst_name r = n
     ∧ ∃ line rest, line ∈ lines
         ∧ split "|" line
           = inst_name r :: inst_version r :: inst_architecture r :: rest).
Proof.
  induction lines as [|line lines IH]; intros installed n r Hr; [left; exact Hr|].
  assert (∀ installed', read_lines lines installed' !! n = Some r →
            installed' !! n = Some r
            ∨ (inst_name r = n
               ∧ ∃ line' rest, line' ∈ line :: lines
                   ∧ split "|" line'
                     = inst_name r :: inst_version r :: inst_architecture r :: rest))
    as Hnext.
  { intros installed' H. destruct (IH _ _ _ H) as [?|(Hn & l' & rest & Hin & Hs)];
      [left; assumption|].
    right. split; [exact Hn|]. exists l', rest. split; [right; exact Hin | exact Hs]. }
  simpl in Hr. destruct (contains "|" line); [|apply Hnext, Hr].
  destruct (split "|" line) as [|nm [|v [|a rest]]] eqn:Hsplit;
    try (apply Hnext, Hr).
  destruct (Hnext _ Hr) as [Hins|Hlater]; [|right; exact Hlater].
  apply lookup_insert_Some in Hins as [[<- <-]|[_ Hins]]; [|left; exact Hins].
  right. split; [reflexivity|]. exists line, rest. split; [left | exact Hsplit].
Qed.

(** Every record of the installed set stands under its own name and was
    read from a line of the output whose first three fields, separated by
    bars, are its name, version and architecture. *)
Theorem installed_record_origin stdout n r :
  read_installed stdout !! n = Some r →
  inst_name r = n
  ∧ ∃ line rest, line ∈ split nl (strip stdout)
      ∧ split "|" line
        = inst_name r :: inst_version r :: inst_architecture r :: rest.
Proof.
  intros Hr. destruct (read_lines_origin _ _ _ _ Hr) as [Habs|H]; [|exact H].
  rewrite lookup_empty in Habs. discriminate.
Qed.

Lemma installed_record_origin_witness :
  inst_name (mkInstalled "vim" "2:9.1" "amd64") = "vim"
  ∧ ∃ line rest,
      line ∈ split nl (strip ("vim|2:9.1|amd64" +:+ nl +:+ "odd line" +:+ nl))
      ∧ split "|" line
        = inst_name (mkInstalled "vim" "2:9.1" "amd64")
          :: inst_version (mkInstalled "vim" "2:9.1" "amd64")
          :: inst_architecture (mkInstalled "vim" "2:9.1" "amd64") :: rest.
Proof.
  apply (installed_record_origin ("vim|2:9.1|amd64" +:+ nl +:+ "odd line" +:+ nl)).
  vm_compute. reflexivity.
Defined.

(** *** Reading back the output of dpkg-query *)

Lemma field_char_solid c : field_char c = true → negb (is_space c) = true.
Proof. unfold field_char. intros H. by apply andb_true_iff in H as [H _]. Qed.

Lemma field_char_bar c : field_char c = true → negb (Ascii.eqb c "|") = true.
Proof. unfold field_char. intros H. by apply andb_true_iff in H as [_ H]. Qed.

Lemma solid_not_newline c :
  negb (is_space c) = true → negb (Ascii.eqb c "010") = true.
Proof.
  destruct (Ascii.eqb_spec c "010") as [->|_]; [discriminate | reflexivity].
Qed.

Lemma render_line_solid r :
  plain_record r → string_forall (λ c, negb (is_space c)) (render_line r) = true.
Proof.
  intros (Hn & Hv & Ha). unfold render_line.
  rewrite !string_forall_app.
  rewrite (string_forall_impl _ _ _ field_char_solid Hn),
    (string_forall_impl _ _ _ field_char_solid Hv),
    (string_forall_impl _ _ _ field_char_solid Ha). reflexivity.
Qed.

Lemma render_line_split r :
  plain_record r →
  contains "|" (render_line r) = true
  ∧ split "|" (render_line r)
    = [inst_name r; inst_version r; inst_architecture r].
Proof.
  intros (Hn & Hv & Ha). unfold render_line.
  change ("|" +:+ inst_version r +:+ "|" +:+ inst_architecture r)
    with (String "|" (inst_version r +:+ String "|" (inst_architecture r))).
  split; [apply contains_app_sep|].
  rewrite split_char_app
    by (apply contains_forall, (string_forall_impl _ _ _ field_char_bar Hn)).
  rewrite split_char_app
    by (apply contains_forall, (string_forall_impl _ _ _ field_char_bar Hv)).
  rewrite split_char_none
    by (apply contains_forall, (string_forall_impl _ _ _ field_char_bar Ha)).
  reflexivity.
Qed.

Lemma render_line_nonempty r : render_line r ≠ "".
Proof. unfold render_line. destruct (inst_name r); discriminate. Qed.

Lemma lstrip_solid_app s t :
  s ≠ "" → string_forall (λ c, negb (is_space c)) s = true →
  lstrip (s +:+ t) = s +:+ t.
Proof.
  destruct s as [|c s]; [contradiction|]. intros _ H. simpl in H.
  apply andb_true_iff in H as [Hc _]. apply negb_true_iff in Hc.
  rewrite app_cons. simpl. by rewrite Hc.
Qed.

Lemma is_empty_app_r x z : is_empty z = false → is_empty (x +:+ z) = false.
Proof. destruct x; [exact id | reflexivity]. Qed.

Lemma rstrip_app_keep x y :
  is_empty (rstrip y) = false → rstrip (x +:+ y) = x +:+ rstrip y.
Proof.
  intros Hy. induction x as [|c x IH]; [reflexivity|].
  rewrite !app_cons. simpl. rewrite IH, (is_empty_app_r _ _ Hy), andb_false_r.
  reflexivity.
Qed.

Lemma join_nonempty sep p rest : p ≠ "" → is_empty (join sep (p :: rest)) = false.
Proof. intros Hp. destruct p; [contradiction|]. by destruct rest. Qed.

Lemma rstrip_cons c s :
  rstrip (String c s)
  = if is_space c && is_empty (rstrip s) then "" else String c (rstrip s).
Proof. reflexivity. Qed.

Lemma rstrip_solid_line s :
  s ≠ "" → string_forall (λ c, negb (is_space c)) s = true → rstrip s = s.
Proof.
  intros Hne Hs. destruct (last_char _ s Hne Hs) as (a & c & -> & Hc).
  apply rstrip_solid. by apply negb_true_iff in Hc.
Qed.

(** Stripping the output leaves its lines joined by newlines. *)
Lemma rstrip_render r rs :
  Forall plain_record (r :: rs) →
  rstrip (render_installed (r :: rs)) = join nl (render_line <$> r :: rs).
Proof.
  revert r. induction rs as [|r2 rs IH]; intros r Hall.
  - apply Forall_cons in Hall as [Hr _]. simpl render_installed.
    rewrite (rstrip_blank_tail (render_line r) (nl +:+ "") eq_refl).
    apply rstrip_solid_line; [apply render_line_nonempty | apply render_line_solid, Hr].
  - apply Forall_cons in Hall as [Hr Hrest].
    change (render_installed (r :: r2 :: rs))
      with (render_line r +:+ String "010" (render_installed (r2 :: rs))).
    change (join nl (render_line <$> r :: r2 :: rs))
      with (render_line r +:+ String "010" (join nl (render_line <$> r2 :: rs))).
    assert (rstrip (String "010" (render_installed (r2 :: rs)))
            = String "010" (join nl (render_line <$> r2 :: rs))) as Htail.
    { rewrite rstrip_cons, (IH r2 Hrest).
      assert (is_empty (join nl (render_line <$> r2 :: rs)) = false) as ->.
      { change (render_line <$> r2 :: rs)
          with (render_line r2 :: (render_line <$> rs)).
        apply join_nonempty, render_line_nonempty. }
      reflexivity. }
    rewrite rstrip_app_keep; rewrite Htail; reflexivity.
Qed.

Lemma split_join_lines line lines :
  Forall (λ l, contains "010" l = false) (line :: lines) →
  split nl (join nl (line :: lines)) = line :: lines.
Proof.
  revert line. induction lines as [|l2 lines IH]; intros line Hall.
  - apply Forall_cons in Hall as [Hl _]. apply split_char_none, Hl.
  - apply Forall_cons in Hall as [Hl Hrest].
    change (join nl (line :: l2 :: lines))
      with (line +:+ String "010" (join nl (l2 :: lines))).
    unfold nl. rewrite (split_char_app _ _ _ Hl). f_equal. apply (IH l2 Hrest).
Qed.

Lemma read_rendered_lines rs :
  Forall plain_record rs →
  ∀ installed, read_lines (render_line <$> rs) installed
               = foldl (λ m r, <[inst_name r := r]> m) installed rs.
Proof.
  induction 1 as [|r rs Hr _ IH]; intros installed; [reflexivity|].
  destruct (render_line_split r Hr) as [Hbar Hsplit].
  simpl. rewrite Hbar, Hsplit, IH. by destruct r.
Qed.

(** Reading the output of dpkg-query for a list of records whose fields
    hold no whitespace and no bar gives back those records, each under its
    name; of two records of one name the later one is kept. *)
Theorem installed_round_trip rs :
  Forall plain_record rs →
  read_installed (render_installed rs)
  = foldl (λ m r, <[inst_name r := r]> m) ∅ rs.
Proof.
  intros Hall. unfold read_installed. destruct rs as [|r rs]; [reflexivity|].
  assert (strip (render_installed (r :: rs)) = join nl (render_line <$> r :: rs))
    as ->.
  { unfold strip. simpl render_installed.
    pose proof Hall as Hall'. apply Forall_cons in Hall' as [Hr _].
    rewrite (lstrip_solid_app _ _ (render_line_nonempty r) (render_line_solid r Hr)).
    apply (rstrip_render r rs Hall). }
  change (render_line <$> r :: rs) with (render_line r :: (render_line <$> rs)).
  rewrite split_join_lines.
  - apply (read_rendered_lines (r :: rs) Hall).
  - change (render_line r :: (render_line <$> rs)) with (render_line <$> r :: rs).
    clear -Hall. induction Hall as [|x xs Hx _ IH]; constructor; [|exact IH].
    apply contains_forall.
    apply (string_forall_impl _ _ _ solid_not_newline), render_line_solid, Hx.
Qed.

Lemma installed_round_trip_witness :
  read_installed
    (render_installed [mkInstalled "vim" "2:9.1" "amd64";
                       mkInstalled "libc6" "2.39-0ubuntu8" "amd64"])
  = foldl (λ m r, <[inst_name r := r]> m) ∅
      [mkInstalled "vim" "2:9.1" "amd64";
       mkInstalled "libc6" "2.39-0ubuntu8" "amd64"].
Proof.
  apply installed_round_trip.
  repeat (apply Forall_cons; split; [repeat split; reflexivity|]).
  apply Forall_nil_2.
Defined.

End SystemPackages.

(** ** Searching the catalog by name *)

Module Search.

Import Parser ParserFormat Installer.

(** [q in s] for strings. *)
Fixpoint is_substring (q s : string) : bool :=
  String.prefix q s
  || match s with
     | EmptyString => false
     | String _ s' => is_substring q s'
     end.

(** The sort key of [search]: 0 for the name itself, 1 for a name that
    starts with the query, 2 otherwise; [query] is already in lower case. *)
Definition relevance (query : string) (p : Package) : nat :=
  if bool_decide (lower (name p) = query) then 0
  else if String.prefix query (lower (name p)) then 1
  else 2.

(** [list.sort(key=key)], a stable sort: each element is put in front of
    the first one whose key is not smaller, starting from the end of the
    list. *)
Fixpoint insert_by {A} (key : A → nat) (x : A) (l : list A) : list A :=
  match l with
  | [] => [x]
  | y :: l' => if Nat.leb (key x) (key y) then x :: l else y :: insert_by key x l'
  end.

Definition sort_by {A} (key : A → nat) (l : list A) : list A :=
  foldr (insert_by key) [] l.

(** [PackageDatabase.search]; [values] is [self.packages.values()], the
    records in the order of the dictionary. *)
Definition search (values : list Package) (query : string) : list Package :=
  let query := lower query in
  let results :=
    List.filter (λ p, is_substring query (lower (name p))) values in
  sort_by (relevance query) results.

(** *** Substrings *)

Lemma prefix_spec q s : String.prefix q s = true ↔ ∃ b, s = q +:+ b.
Proof.
  revert s. induction q as [|c q IH]; intros s.
  - split; [intros _; exists s; reflexivity | intros _; by destruct s].
  - destruct s as [|x s]; simpl.
    + split; [discriminate | intros [b Hb]; discriminate].
    + destruct (ascii_dec c x) as [->|Hne].
      * rewrite IH. split; intros [b Hb]; exists b.
        -- by rewrite app_cons, <- Hb.
        -- rewrite app_cons in Hb. by injection Hb.
      * split; [discriminate|]. intros [b Hb]. rewrite app_cons in Hb.
        injection Hb as -> _. contradiction.
Qed.

Lemma is_substring_spec q s :
  is_substring q s = true ↔ ∃ a b, s = a +:+ q +:+ b.
Proof.
  induction s as [|x s IH].
  - change (is_substring q "") with (String.prefix q "" || false).
    rewrite orb_false_r, prefix_spec. split.
    + intros [b Hb]. exists "", b. exact Hb.
    + intros (a & b & Hab). destruct a; [|discriminate]. exists b. exact Hab.
  - change (is_substring q (String x s))
      with (String.prefix q (String x s) || is_substring q s).
    rewrite orb_true_iff, prefix_spec, IH. split.
    + intros [[b Hb]|(a & b & Hab)].
      * exists "", b. exact Hb.
      * exists (String x a), b. by rewrite app_cons, <- Hab.
    + intros (a & b & Hab). destruct a as [|y a].
      * left. exists b. exact Hab.
      * right. rewrite app_cons in Hab. injection Hab as _ Hab. eauto.
Qed.

Lemma lower_char_idemp c : lower_char (lower_char c) = lower_char c.
Proof. destruct c as [[] [] [] [] [] [] [] []]; vm_compute; reflexivity. Qed.

Lemma lower_idemp s : lower (lower s) = lower s.
Proof.
  induction s as [|c s IH]; [reflexivity|]. simpl.
  by rewrite lower_char_idemp, IH.
Qed.

(** *** The stable sort on keys 0, 1, 2 *)

Lemma elem_of_insert_by {A} (key : A → nat) x y l :
  y ∈ insert_by key x l ↔ y = x ∨ y ∈ l.
Proof.
  induction l as [|z l IH]; simpl.
  - rewrite list_elem_of_singleton, elem_of_nil. tauto.
  - destruct (Nat.leb (key x) (key z)).
    + rewrite elem_of_cons. tauto.
    + rewrite !elem_of_cons, IH. tauto.
Qed.

Lemma elem_of_sort_by {A} (key : A → nat) y l : y ∈ sort_by key l ↔ y ∈ l.
Proof.
  induction l as [|x l IH]; [reflexivity|].
  simpl. rewrite elem_of_insert_by, elem_of_cons, IH. tauto.
Qed.

Lemma insert_by_front {A} (key : A → nat) x l :
  (∀ y, y ∈ l → key x ≤ key y) → insert_by key x l = x :: l.
Proof.
  destruct l as [|y l]; [reflexivity|]. intros H. simpl.
  rewrite (proj2 (Nat.leb_le _ _)); [reflexivity | apply H; left].
Qed.

Lemma insert_by_skip {A} (key : A → nat) x l1 l2 :
  (∀ y, y ∈ l1 → key y < key x) →
  insert_by key x (l1 ++ l2) = l1 ++ insert_by key x l2.
Proof.
  induction l1 as [|y l1 IH]; intros H; [reflexivity|]. simpl.
  rewrite (proj2 (Nat.leb_gt _ _)) by (apply H; left).
  rewrite IH; [reflexivity|]. intros z Hz. apply H. right. exact Hz.
Qed.

Definition with_key {A} (key : A → nat) (k : nat) (l : list A) : list A :=
  List.filter (λ x, Nat.eqb (key x) k) l.

Lemma elem_of_with_key {A} (key : A → nat) k l y :
  y ∈ with_key key k l ↔ y ∈ l ∧ key y = k.
Proof.
  unfold with_key. rewrite !list_elem_of_In, filter_In, Nat.eqb_eq. tauto.
Qed.

Lemma sort_by_three {A} (key : A → nat) l :
  (∀ x, key x ≤ 2) →
  sort_by key l = with_key key 0 l ++ with_key key 1 l ++ with_key key 2 l.
Proof.
  intros Hkey. induction l as [|x l IH]; [reflexivity|].
  simpl sort_by. fold (sort_by key l). rewrite IH.
  unfold with_key at 4 5 6. simpl List.filter.
  fold (with_key key 0 l). fold (with_key key 1 l). fold (with_key key 2 l).
  specialize (Hkey x).
  destruct (key x) as [|[|[|k]]] eqn:Hk; [| | |lia]; simpl Nat.eqb; cbv iota.
  - apply insert_by_front. intros y Hy. rewrite Hk. lia.
  - rewrite insert_by_skip.
    + f_equal. apply insert_by_front. intros y Hy. rewrite Hk.
      apply elem_of_app in Hy as [Hy|Hy]; apply elem_of_with_key in Hy as [_ ->]; lia.
    + intros y Hy. apply elem_of_with_key in Hy as [_ ->]. lia.
  - rewrite app_assoc, insert_by_skip.
    + rewrite <- app_assoc. do 2 f_equal. apply insert_by_front.
      intros y Hy. rewrite Hk. apply elem_of_with_key in Hy as [_ ->]. lia.
    + intros y Hy. rewrite Hk.
      apply elem_of_app in Hy as [Hy|Hy]; apply elem_of_with_key in Hy as [_ ->]; lia.
Qed.

Lemma relevance_le query p : relevance query p ≤ 2.
Proof.
  unfold relevance. destruct (bool_decide _); [lia|].
  destruct (String.prefix _ _); lia.
Qed.

(** *** What a search returns *)

(** A record is found exactly when it is in the catalog and its name, in
    lower case, contains the query, in lower case, somewhere. *)
Theorem search_finds values query p :
  p ∈ search values query
  ↔ p ∈ values ∧ ∃ a b, lower (name p) = a +:+ lower query +:+ b.
Proof.
  unfold search. rewrite elem_of_sort_by, list_elem_of_In, filter_In,
    <- list_elem_of_In, is_substring_spec. reflexivity.
Qed.

(** The records found come in three groups: those named exactly as the
    query, then those whose name starts with it, then the others; inside
    each group the order of the catalog is kept. Letter case plays no part:
    the query in lower case gives the same result. *)
Theorem search_order values query :
  let matches :=
    List.filter (λ p, is_substring (lower query) (lower (name p))) values in
  search values query
  = List.filter (λ p, bool_decide (lower (name p) = lower query)) matches
    ++ List.filter (λ p, negb (bool_decide (lower (name p) = lower query))
                         && String.prefix (lower query) (lower (name p))) matches
    ++ List.filter (λ p, negb (String.prefix (lower query) (lower (name p))))
         matches
  ∧ search values (lower query) = search values query.
Proof.
  intros matches. split; [|unfold search; by rewrite lower_idemp].
  unfold search. fold matches.
  rewrite (sort_by_three _ _ (relevance_le (lower query))). unfold with_key.
  assert (∀ s, bool_decide (s = lower query) = true →
               String.prefix (lower query) s = true) as Hexact.
  { intros s Hs. apply bool_decide_eq_true in Hs as ->.
    apply prefix_spec. exists "". by rewrite app_nil_end. }
  f_equal; [|f_equal]; apply filter_ext; intros p; unfold relevance;
    specialize (Hexact (lower (name p)));
    destruct (bool_decide (lower (name p) = lower query));
    [reflexivity | | rewrite Hexact; reflexivity | | rewrite Hexact; reflexivity |];
    destruct (String.prefix (lower query) (lower (name p))); reflexivity.
Qed.

End Search.
